(** * crictl image commands (cmd/crictl/image.go)

    A shallow embedding of the image sub-commands of crictl: the
    ordering used by [images], the credential parser of [pull], the
    display helpers for repository tags and digests, and the command
    actions themselves, run against an abstract image service whose
    calls are recorded in a trace. *)

From Stdlib Require Import List String Ascii ZArith Lia Bool Permutation.
From Stdlib Require DecimalString.
Import ListNotations.
Local Open Scope string_scope.
Local Open Scope Z_scope.

Set Implicit Arguments.

(** ** Go strings

    A Go string is a sequence of bytes; [string] (a list of [ascii]) is
    the same thing.  [len] counts bytes and [<] is the bytewise
    lexicographic order, which is [String.ltb]. *)

Module strings.

Definition len (s : string) : Z := Z.of_nat (String.length s).

(** [s[:hi]] and [s[lo:]].  Go panics when the index is outside
    [0..len s]; every call below passes an index in range (see
    [IndexByte_range] and [LastIndexByte_range]). *)
Definition sliceTo (s : string) (hi : Z) : string :=
  substring 0 (Z.to_nat hi) s.

Definition sliceFrom (s : string) (lo : Z) : string :=
  substring (Z.to_nat lo) (String.length s - Z.to_nat lo) s.

Definition HasPrefix (s pre : string) : bool := prefix pre s.

Definition TrimPrefix (s pre : string) : string :=
  if HasPrefix s pre then sliceFrom s (len pre) else s.

(** [strings.Index] and [strings.LastIndex] for a one-byte separator,
    the only way this program calls them: the position of the first
    (last) occurrence, or -1. *)
Fixpoint IndexByte (s : string) (c : ascii) : Z :=
  match s with
  | EmptyString => -1
  | String a s' =>
      if Ascii.eqb a c then 0
      else let m := IndexByte s' c in
           if m <? 0 then -1 else m + 1
  end.

Fixpoint LastIndexByte (s : string) (c : ascii) : Z :=
  match s with
  | EmptyString => -1
  | String a s' =>
      let m := LastIndexByte s' c in
      if 0 <=? m then m + 1
      else if Ascii.eqb a c then 0 else -1
  end.

Fixpoint Count (s : string) (c : ascii) : Z :=
  match s with
  | EmptyString => 0
  | String a s' => (if Ascii.eqb a c then 1 else 0) + Count s' c
  end.

(** The loop of [genSplit]: [k] is the number of separators still
    allowed to be consumed ([n - 1 - i] in the Go code). *)
Fixpoint splitLoop (k : nat) (s : string) (c : ascii) : list string :=
  match k with
  | O => [s]
  | S k' =>
      let m := IndexByte s c in
      if m <? 0 then [s]
      else sliceTo s m :: splitLoop k' (sliceFrom s (m + 1)) c
  end.

Definition genSplit (s : string) (c : ascii) (n : Z) : list string :=
  if n =? 0 then []
  else
    let n := if n <? 0 then Count s c + 1 else n in
    splitLoop (Z.to_nat (n - 1)) s c.

Definition SplitN (s : string) (c : ascii) (n : Z) : list string :=
  genSplit s c n.

Definition Split (s : string) (c : ascii) : list string :=
  genSplit s c (-1).

(** Does byte [c] occur in [s]? *)
Fixpoint hasByte (c : ascii) (s : string) : bool :=
  match s with
  | EmptyString => false
  | String a s' => Ascii.eqb a c || hasByte c s'
  end.

End strings.

(** ** Errors

    A Go [error] is represented by its message. *)

Inductive result (A : Type) : Type :=
| Ok (a : A)
| Err (msg : string).
Arguments Ok {A} a.
Arguments Err {A} msg.

(** ** Protocol messages (pb) *)

Record Image := mkImage {
  Id : string;
  RepoTags : list string;
  RepoDigests : list string;
  Size_ : N;
  Uid : option Z;
  Username : string
}.

Record AuthConfig := mkAuth {
  AuthUsername : string;
  AuthPassword : string
}.

(** ** [imageByRef]: the [sort.Interface] used by [images] *)

(** The body of [Less], on the two images [a[i]] and [a[j]]. *)
Definition imageLess (x y : Image) : bool :=
  match RepoTags x, RepoTags y with
  | tx :: _, ty :: _ => String.ltb tx ty
  | _, _ =>
      match RepoDigests x, RepoDigests y with
      | dx :: _, dy :: _ => String.ltb dx dy
      | _, _ => String.ltb (Id x) (Id y)
      end
  end.

Module imageByRef.

Definition Len (a : list Image) : Z := Z.of_nat (List.length a).

(** [None] stands for the index-out-of-range panic. *)
Definition Less (a : list Image) (i j : nat) : option bool :=
  match nth_error a i, nth_error a j with
  | Some x, Some y => Some (imageLess x y)
  | _, _ => None
  end.

Fixpoint set (a : list Image) (i : nat) (x : Image) : list Image :=
  match a, i with
  | [], _ => []
  | _ :: t, O => x :: t
  | h :: t, S i' => h :: set t i' x
  end.

Definition Swap (a : list Image) (i j : nat) : option (list Image) :=
  match nth_error a i, nth_error a j with
  | Some x, Some y => Some (set (set a i y) j x)
  | _, _ => None
  end.

End imageByRef.

(** ** Credentials *)

Definition COLON : ascii := ":"%char.
Definition AT : ascii := "@"%char.

(** [up[0]] and [up[1]] are read with [nth]; [SplitN] with [n = 2]
    returns one or two parts ([SplitN_2_cases]), so the default is
    never used. *)
Definition parseCreds (creds : string) : result (string * string) :=
  if String.eqb creds "" then Err "credentials can't be empty"
  else
    let up := strings.SplitN creds COLON 2 in
    if Z.of_nat (List.length up) =? 1 then Ok (nth 0 up "", "")
    else if String.eqb (nth 0 up "") "" then Err "username can't be empty"
    else Ok (nth 0 up "", nth 1 up "").

Definition getAuth (creds : string) : result AuthConfig :=
  match parseCreds creds with
  | Err e => Err e
  | Ok (username, password) => Ok (mkAuth username password)
  end.

(** ** Display helpers *)

Definition normalizeRepoTagPair (repoTags : list string) (imageName : string)
  : list (list string) :=
  if Z.of_nat (List.length repoTags) =? 0 then [[imageName; "<none>"]]
  else
    fold_left
      (fun repoTagPairs repoTag =>
         let idx := strings.LastIndexByte repoTag COLON in
         if idx =? -1 then
           (repoTagPairs ++ [["errorRepoTag"; "errorRepoTag"]])%list
         else
           (repoTagPairs ++ [[strings.sliceTo repoTag idx;
                              strings.sliceFrom repoTag (idx + 1)]])%list)
      repoTags [].

Definition normalizeRepoDigest (repoDigests : list string) : string * string :=
  match repoDigests with
  | [] => ("<none>", "<none>")
  | d :: _ =>
      let repoDigestPair := strings.Split d AT in
      if negb (Z.of_nat (List.length repoDigestPair) =? 2) then
        ("errorName", "errorRepoDigest")
      else (nth 0 repoDigestPair "", nth 1 repoDigestPair "")
  end.

(** ** The image service

    [pb.ImageServiceClient] is an interface; the service behind it is a
    state machine of an arbitrary state type.  A call returns either a
    response or an error. *)

Record ImageStatusResponse := mkStatus {
  RespImage : option Image;
  RespInfo : list (string * string)
}.

Class ImageServiceClient (S : Type) := {
  clientPullImage : S -> string -> option AuthConfig -> S * result string;
  clientListImages : S -> string -> S * result (list Image);
  clientImageStatus : S -> string -> bool -> S * result ImageStatusResponse;
  clientRemoveImage : S -> string -> S * result unit
}.

(** What a command does that can be seen from outside, in order. *)
Inductive Event :=
| RpcPullImage (image : string) (auth : option AuthConfig)
| RpcListImages (image : string)
| RpcImageStatus (image : string) (verbose : bool)
| RpcRemoveImage (image : string)
| Print (text : string)          (* fmt.Printf on standard output *)
| TabWrite (text : string)       (* fmt.Fprint* into the tabwriter [w] *)
| TabFlush                       (* w.Flush() *)
| ShowSubcommandHelp             (* cli.ShowSubcommandHelp *)
| Emit (format : string) (payload : string).  (* serialised json/yaml output *)

(** ** Command line context (urfave/cli) *)

Module cli.

Record Context := mkContext {
  args : list string;
  bools : list string;               (* boolean flags that are set *)
  values : list (string * string)    (* string flags that are set *)
}.

Definition NArg (c : Context) : Z := Z.of_nat (List.length (args c)).

(** [Args().Get(i)]; the empty string when there is no such argument. *)
Definition Get (c : Context) (i : nat) : string := nth i (args c) "".

Definition First (c : Context) : string := Get c 0.

Definition Bool (c : Context) (name : string) : bool :=
  existsb (String.eqb name) (bools c).

Definition String (c : Context) (name : string) : string :=
  match find (fun kv => String.eqb name (fst kv)) (values c) with
  | Some kv => snd kv
  | None => ""
  end.

Definition IsSet (c : Context) (name : string) : bool :=
  existsb (String.eqb name) (bools c)
  || existsb (fun kv => String.eqb name (fst kv)) (values c).

End cli.

(** Line feed and horizontal tab. *)
Definition LF : string := String (ascii_of_nat 10) "".
Definition TAB : string := String (ascii_of_nat 9) "".

(** A tab-separated line, as the table formats build it. *)
Definition row (cells : list string) : string := String.concat TAB cells ++ LF.

(** ** Commands

    A command runs in a world made of the service state and the trace
    of what happened so far.  An error stops the command; the world
    reached at that point is kept, so that a trace can be inspected
    after a failure as well. *)

Record World (S : Type) := mkWorld {
  service : S;
  trace : list Event
}.

Definition M (S A : Type) : Type := World S -> World S * result A.

Definition ret {S A} (a : A) : M S A := fun w => (w, Ok a).

Definition fail {S A} (msg : string) : M S A := fun w => (w, Err msg).

Definition bind {S A B} (m : M S A) (k : A -> M S B) : M S B :=
  fun w =>
    match m w with
    | (w', Ok a) => k a w'
    | (w', Err e) => (w', Err e)
    end.

Notation "x <- m ;; k" := (bind m (fun x => k))
  (at level 61, m at next level, right associativity).
Notation "m ;; k" := (bind m (fun _ => k))
  (at level 61, right associativity).

(** [if err != nil { return fmt.Errorf(...err...) }] *)
Definition onErr {S A} (m : M S A) (wrap : string -> string) : M S A :=
  fun w =>
    match m w with
    | (w', Ok a) => (w', Ok a)
    | (w', Err e) => (w', Err (wrap e))
    end.

Definition emit {S} (e : Event) : M S unit :=
  fun w => (mkWorld (service w) (trace w ++ [e]), Ok tt).

(** A [for ... range] loop whose body may return an error. *)
Fixpoint forEach {S A} (l : list A) (body : A -> M S unit) : M S unit :=
  match l with
  | [] => ret tt
  | x :: l' => body x ;; forEach l' body
  end.

(** One remote call: it is recorded, and the service moves on. *)
Definition rpc {S A} (e : Event) (call : S -> S * result A) : M S A :=
  fun w =>
    let (s', r) := call (service w) in
    (mkWorld s' (trace w ++ [e]), r).

Definition decimal (n : N) : string :=
  DecimalString.NilZero.string_of_uint (N.to_uint n).

(** Functions of the program and of its libraries that live outside
    image.go.  They are left open: every result below holds whatever
    they do. *)
Class Externals (S : Type) := {
  (** [getImageClient]: [Some e] when the connection cannot be set up. *)
  getImageClient : cli.Context -> option string;
  (** [sort.Sort] on an [imageByRef], given its [Less]. *)
  sort_Sort : (Image -> Image -> bool) -> list Image -> list Image;
  (** [units.HumanSizeWithPrecision(float64(size), precision)]. *)
  HumanSizeWithPrecision : N -> Z -> string;
  (** The verbs [%q] on a string and [%v] on an info map and on a uid. *)
  quote : string -> string;
  showInfo : list (string * string) -> string;
  showUid : Z -> string;
  protobufObjectToJSON : Image -> result string;
  outputStatusInfo : string -> list (string * string) -> string -> M S unit;
  outputProtobufObjAsJSON : list Image -> M S unit;
  outputProtobufObjAsYAML : list Image -> M S unit;
  (** The constant [truncatedIDLen]. *)
  truncatedIDLen : Z
}.

Section Commands.

Context {S : Type} {client : ImageServiceClient S} {ext : Externals S}.

(** *** Request helpers *)

Definition PullImage (image : string) (auth : option AuthConfig)
  : M S string :=
  rpc (RpcPullImage image auth) (fun s => clientPullImage s image auth).

Definition ListImages (image : string) : M S (list Image) :=
  rpc (RpcListImages image) (fun s => clientListImages s image).

Definition ImageStatus (image : string) (verbose : bool)
  : M S ImageStatusResponse :=
  rpc (RpcImageStatus image verbose)
      (fun s => clientImageStatus s image verbose).

Definition RemoveImage (image : string) : M S unit :=
  if String.eqb image "" then fail "ImageID cannot be empty"
  else rpc (RpcRemoveImage image) (fun s => clientRemoveImage s image).

(** *** pull *)

Definition pullImageCommand (context : cli.Context) : M S unit :=
  let imageName := cli.First context in
  if String.eqb imageName "" then emit ShowSubcommandHelp
  else
    match getImageClient context with
    | Some err => fail err
    | None =>
        auth <- (if cli.IsSet context "creds" then
                   match getAuth (cli.String context "creds") with
                   | Err e => fail e
                   | Ok a => ret (Some a)
                   end
                 else ret None) ;;
        r <- onErr (PullImage imageName auth)
                   (fun e => "pulling image failed: " ++ e) ;;
        emit (Print ("Image is up to date for " ++ r ++ LF))
    end.

(** *** images *)

(** The identifier shown in a table row. *)
Definition displayID (noTrunc : bool) (imageId : string) : string :=
  if negb noTrunc then
    let id := strings.TrimPrefix imageId "sha256:" in
    if strings.len id >? truncatedIDLen then
      strings.sliceTo id truncatedIDLen
    else id
  else imageId.

(** The body of the loop over [r.Images]. *)
Definition listImageStep (verbose showDigest quiet noTrunc : bool)
           (image : Image) : M S unit :=
  if quiet then emit (Print (Id image ++ LF))
  else if negb verbose then
    let (imageName, repoDigest) := normalizeRepoDigest (RepoDigests image) in
    let repoTagPairs := normalizeRepoTagPair (RepoTags image) imageName in
    let size := HumanSizeWithPrecision (Size_ image) 3 in
    let id := displayID noTrunc (Id image) in
    forEach repoTagPairs (fun repoTagPair =>
      if showDigest then
        emit (TabWrite (row [nth 0 repoTagPair ""; nth 1 repoTagPair "";
                             repoDigest; id; size]))
      else
        emit (TabWrite (row [nth 0 repoTagPair ""; nth 1 repoTagPair "";
                             id; size])))
  else
    emit (Print ("ID: " ++ Id image ++ LF)) ;;
    forEach (RepoTags image)
            (fun tag => emit (Print ("RepoTags: " ++ tag ++ LF))) ;;
    forEach (RepoDigests image)
            (fun digest => emit (Print ("RepoDigests: " ++ digest ++ LF))) ;;
    (if negb (N.eqb (Size_ image) 0) then
       emit (Print ("Size: " ++ decimal (Size_ image) ++ LF))
     else ret tt) ;;
    (match Uid image with
     | Some uid => emit (Print ("Uid: " ++ showUid uid ++ LF))
     | None => ret tt
     end) ;;
    (if negb (String.eqb (Username image) "") then
       emit (Print ("Username: " ++ Username image ++ LF ++ LF))
     else ret tt).

Definition listImageCommand (context : cli.Context) : M S unit :=
  match getImageClient context with
  | Some err => fail err
  | None =>
      r <- onErr (ListImages (cli.First context))
                 (fun e => "listing images failed: " ++ e) ;;
      let images := sort_Sort imageLess r in
      let output := cli.String context "output" in
      if String.eqb output "json" then outputProtobufObjAsJSON images
      else if String.eqb output "yaml" then outputProtobufObjAsYAML images
      else
        let verbose := cli.Bool context "verbose" in
        let showDigest := cli.Bool context "digests" in
        let quiet := cli.Bool context "quiet" in
        let noTrunc := cli.Bool context "no-trunc" in
        (if negb verbose && negb quiet then
           if showDigest then
             emit (TabWrite
                   (row ["IMAGE"; "TAG"; "DIGEST"; "IMAGE ID"; "SIZE"]))
           else
             emit (TabWrite (row ["IMAGE"; "TAG"; "IMAGE ID"; "SIZE"]))
         else ret tt) ;;
        forEach images (listImageStep verbose showDigest quiet noTrunc) ;;
        emit TabFlush
  end.

(** *** inspecti *)

(** The body of the loop over the arguments. *)
Definition imageStatusStep (verbose : bool) (output : string) (id : string)
  : M S unit :=
  r <- onErr (ImageStatus id verbose)
             (fun e => "image status for " ++ quote id
                       ++ " request failed: " ++ e) ;;
  match RespImage r with
  | None => fail ("no such image " ++ quote id ++ " present")
  | Some image =>
      match protobufObjectToJSON image with
      | Err e => fail ("failed to marshal status to json for "
                       ++ quote id ++ ": " ++ e)
      | Ok status =>
          if String.eqb output "json" || String.eqb output "yaml" then
            onErr (outputStatusInfo status (RespInfo r) output)
                  (fun e => "failed to output status for " ++ quote id
                            ++ ": " ++ e)
          else if String.eqb output "table" then
            emit (Print ("ID: " ++ Id image ++ LF)) ;;
            forEach (RepoTags image)
                    (fun tag => emit (Print ("Tag: " ++ tag ++ LF))) ;;
            forEach (RepoDigests image)
                    (fun digest => emit (Print ("Digest: " ++ digest ++ LF))) ;;
            emit (Print ("Size: "
                         ++ HumanSizeWithPrecision (Size_ image) 3 ++ LF)) ;;
            (if verbose then
               emit (Print ("Info: " ++ showInfo (RespInfo r) ++ LF))
             else ret tt)
          else fail ("output option cannot be " ++ output)
      end
  end.

Definition imageStatusCommand (context : cli.Context) : M S unit :=
  if cli.NArg context =? 0 then emit ShowSubcommandHelp
  else
    match getImageClient context with
    | Some err => fail err
    | None =>
        let verbose := negb (cli.Bool context "quiet") in
        let output := cli.String context "output" in
        let output := if String.eqb output "" then "json" else output in
        forEach (cli.args context) (imageStatusStep verbose output)
    end.

(** *** rmi *)

(** The body of the loop over the arguments. *)
Definition removeImageStep (id : string) : M S unit :=
  let verbose := false in
  status <- onErr (ImageStatus id verbose)
                  (fun e => "image status request for " ++ quote id
                            ++ " failed: " ++ e) ;;
  match RespImage status with
  | None => fail ("no such image " ++ id)
  | Some image =>
      onErr (RemoveImage id)
            (fun e => "error of removing image " ++ quote id ++ ": " ++ e) ;;
      forEach (RepoTags image)
              (fun repoTag => emit (Print ("Deleted: " ++ repoTag ++ LF)))
  end.

Definition removeImageCommand (context : cli.Context) : M S unit :=
  if cli.NArg context =? 0 then emit ShowSubcommandHelp
  else
    match getImageClient context with
    | Some err => fail err
    | None => forEach (cli.args context) removeImageStep
    end.

End Commands.

(** ** A concrete service and concrete externals

    Used to run the commands on examples: the service keeps the list of
    stored images and resolves an image by identifier or by tag. *)

Definition refersTo (ref : string) (i : Image) : bool :=
  String.eqb ref (Id i) || existsb (String.eqb ref) (RepoTags i).

#[export] Instance storeClient : ImageServiceClient (list Image) := {
  clientPullImage s image _ := (s, Ok image);
  clientListImages s image :=
    (s, Ok (if String.eqb image "" then s else filter (refersTo image) s));
  clientImageStatus s image _ :=
    (s, Ok (mkStatus (find (refersTo image) s) []));
  clientRemoveImage s image :=
    (filter (fun i => negb (refersTo image i)) s, Ok tt)
}.

(** A service that knows one image under every name, the empty one
    included. *)
Definition anyImage : Image :=
  mkImage "sha256:0a1b" ["busybox:latest"] [] 10 None "".

#[export] Instance constClient : ImageServiceClient unit := {
  clientPullImage s image _ := (s, Ok image);
  clientListImages s _ := (s, Ok [anyImage]);
  clientImageStatus s _ _ := (s, Ok (mkStatus (Some anyImage) []));
  clientRemoveImage s _ := (s, Ok tt)
}.

Fixpoint insertBy (less : Image -> Image -> bool) (x : Image)
         (l : list Image) : list Image :=
  match l with
  | [] => [x]
  | y :: t => if less x y then x :: l else y :: insertBy less x t
  end.

Definition insertionSort (less : Image -> Image -> bool) (l : list Image)
  : list Image :=
  fold_right (insertBy less) [] l.

Definition DQUOTE : string := String (ascii_of_nat 34) "".

(** Modelled from the spec: the constant [truncatedIDLen] is declared
    outside image.go; the specification says that the identifier is
    truncated to a fixed length of 12. *)
Definition specTruncatedIDLen : Z := 12.

Definition plainExternals (S : Type) : Externals S := {|
  getImageClient := fun _ => None;
  sort_Sort := insertionSort;
  HumanSizeWithPrecision := fun n _ => decimal n ++ "B";
  quote := fun s => DQUOTE ++ s ++ DQUOTE;
  showInfo := fun _ => "map[]";
  showUid := fun u => decimal (Z.to_N u);
  protobufObjectToJSON := fun i => Ok (Id i);
  outputStatusInfo := fun status _ format => emit (Emit format status);
  outputProtobufObjAsJSON :=
    fun images => emit (Emit "json" (String.concat "," (map Id images)));
  outputProtobufObjAsYAML :=
    fun images => emit (Emit "yaml" (String.concat "," (map Id images)));
  truncatedIDLen := specTruncatedIDLen
|}.

Definition emptyWorld {S} (s : S) : World S := mkWorld s [].

(** Sample images. *)
Definition imgTagA1 : Image := mkImage "1" ["app:1"] [] 0 None "".
Definition imgTagA2 : Image := mkImage "2" ["app:1"] [] 0 None "".
Definition imgX : Image := mkImage "9" ["a"] ["z"] 0 None "".
Definition imgY : Image := mkImage "1" ["b"] [] 0 None "".
Definition imgZ : Image := mkImage "2" [] ["y"] 0 None "".
Definition imgLong : Image :=
  mkImage "sha256:abcdef0123456789abcdef0123456789"
          ["busybox:1.28"; "busybox:latest"] ["busybox@sha256:77"] 1024 None "".


(** ** Reference notions used to state the properties *)

(** The text of [s] before the first byte [c] (all of [s] when there is
    none), and the text after it (empty when there is none). *)
Fixpoint beforeFirst (c : ascii) (s : string) : string :=
  match s with
  | EmptyString => EmptyString
  | String a s' => if Ascii.eqb a c then EmptyString
                   else String a (beforeFirst c s')
  end.

Fixpoint afterFirst (c : ascii) (s : string) : string :=
  match s with
  | EmptyString => EmptyString
  | String a s' => if Ascii.eqb a c then s' else afterFirst c s'
  end.

(** The text of [s] before and after the last byte [c], for a string
    that contains one. *)
Fixpoint beforeLast (c : ascii) (s : string) : string :=
  match s with
  | EmptyString => EmptyString
  | String a s' => if strings.hasByte c s' then String a (beforeLast c s')
                   else EmptyString
  end.

Fixpoint afterLast (c : ascii) (s : string) : string :=
  match s with
  | EmptyString => EmptyString
  | String a s' => if strings.hasByte c s' then afterLast c s' else s'
  end.

(** The pair shown for one repository tag. *)
Definition repoTagPairOf (repoTag : string) : list string :=
  if strings.hasByte COLON repoTag then
    [beforeLast COLON repoTag; afterLast COLON repoTag]
  else ["errorRepoTag"; "errorRepoTag"].

(** Two images have the same shape when they agree on having a tag and
    on having a digest. *)
Definition hasTag (x : Image) : bool :=
  match RepoTags x with [] => false | _ => true end.

Definition hasDigest (x : Image) : bool :=
  match RepoDigests x with [] => false | _ => true end.

Definition sameShape (x y : Image) : bool :=
  Bool.eqb (hasTag x) (hasTag y) && Bool.eqb (hasDigest x) (hasDigest y).

(** The concrete externals, for the list-of-images service. *)
Definition onStore : Externals (list Image) := plainExternals (list Image).

(** The string of [x] that [imageLess] looks at when [x] is compared
    with [y]. *)
Definition keyAgainst (x y : Image) : string :=
  match RepoTags x, RepoTags y with
  | tx :: _, _ :: _ => tx
  | _, _ =>
      match RepoDigests x, RepoDigests y with
      | dx :: _, _ :: _ => dx
      | _, _ => Id x
      end
  end.

(** The requests among the events of a trace. *)
Definition isRpc (e : Event) : bool :=
  match e with
  | RpcPullImage _ _ | RpcListImages _ | RpcImageStatus _ _
  | RpcRemoveImage _ => true
  | _ => false
  end.

Definition rpcs (t : list Event) : list Event := filter isRpc t.

Definition isTabWrite (e : Event) : bool :=
  match e with TabWrite _ => true | _ => false end.

(** The credentials string an [AuthConfig] comes from, when it has a
    password part. *)
Definition joinCreds (a : AuthConfig) : string :=
  AuthUsername a ++ String COLON (AuthPassword a).

(** A command that only appends the events [evs] to the trace. *)
Definition emits {S} (evs : list Event) : M S unit :=
  fun w => (mkWorld (service w) (trace w ++ evs), Ok tt).

(** The events written for one image by the loop of [images]. *)
Definition imageEvents {S} {ext : Externals S}
           (verbose showDigest quiet noTrunc : bool) (image : Image)
  : list Event :=
  if quiet then [Print (Id image ++ LF)]
  else if negb verbose then
    map (fun pair =>
           TabWrite
             (row (if showDigest then
                     [nth 0 pair ""; nth 1 pair "";
                      snd (normalizeRepoDigest (RepoDigests image));
                      displayID noTrunc (Id image);
                      HumanSizeWithPrecision (Size_ image) 3]
                   else
                     [nth 0 pair ""; nth 1 pair "";
                      displayID noTrunc (Id image);
                      HumanSizeWithPrecision (Size_ image) 3])))
        (normalizeRepoTagPair
           (RepoTags image)
           (fst (normalizeRepoDigest (RepoDigests image))))
  else
    ([Print ("ID: " ++ Id image ++ LF)]
     ++ map (fun tag => Print ("RepoTags: " ++ tag ++ LF)) (RepoTags image)
     ++ map (fun digest => Print ("RepoDigests: " ++ digest ++ LF))
            (RepoDigests image)
     ++ (if negb (N.eqb (Size_ image) 0) then
           [Print ("Size: " ++ decimal (Size_ image) ++ LF)]
         else [])
     ++ (match Uid image with
         | Some uid => [Print ("Uid: " ++ showUid uid ++ LF)]
         | None => []
         end)
     ++ (if negb (String.eqb (Username image) "") then
           [Print ("Username: " ++ Username image ++ LF ++ LF)]
         else []))%list.

(** What [images] writes for the listed images in its text modes: the
    header (table mode only), the events of each image, and the flush. *)
Definition tableEvents {S} {ext : Externals S} (context : cli.Context)
           (images : list Image) : list Event :=
  let verbose := cli.Bool context "verbose" in
  let showDigest := cli.Bool context "digests" in
  let quiet := cli.Bool context "quiet" in
  let noTrunc := cli.Bool context "no-trunc" in
  ((if negb verbose && negb quiet then
      [TabWrite (row (if showDigest then
                        ["IMAGE"; "TAG"; "DIGEST"; "IMAGE ID"; "SIZE"]
                      else ["IMAGE"; "TAG"; "IMAGE ID"; "SIZE"]))]
    else [])
   ++ flat_map (imageEvents verbose showDigest quiet noTrunc) images
   ++ [TabFlush])%list.

(** The table rows written for one image, given the text [shown] in
    the identifier column. *)
Definition tableRowsWith {S} {ext : Externals S} (showDigest : bool)
           (shown : Image -> string) (image : Image) : list Event :=
  map (fun pair =>
         TabWrite
           (row (if showDigest then
                   [nth 0 pair ""; nth 1 pair "";
                    snd (normalizeRepoDigest (RepoDigests image));
                    shown image;
                    HumanSizeWithPrecision (Size_ image) 3]
                 else
                   [nth 0 pair ""; nth 1 pair "";
                    shown image;
                    HumanSizeWithPrecision (Size_ image) 3])))
      (normalizeRepoTagPair
         (RepoTags image)
         (fst (normalizeRepoDigest (RepoDigests image)))).

(** The requests of a complete run of [rmi] on the given arguments. *)
Definition rmiPlan (ids : list string) : list Event :=
  flat_map (fun id => [RpcImageStatus id false; RpcRemoveImage id]) ids.

(** The number of table rows of an image: one per tag, and one when it
    has no tag. *)
Definition rowsOf (image : Image) : nat :=
  Nat.max 1 (List.length (RepoTags image)).

(** * Properties *)

(** ** Go strings *)

Lemma len_nonneg (s : string) : 0 <= strings.len s.
Proof. unfold strings.len. lia. Qed.

Lemma len_String (a : ascii) (s : string) :
  strings.len (String a s) = strings.len s + 1.
Proof. unfold strings.len. simpl String.length. lia. Qed.

Lemma substring_prefix_app (u v : string) :
  substring 0 (String.length u) (u ++ v) = u.
Proof.
  induction u as [|a u IH]; simpl.
  - destruct v; reflexivity.
  - now rewrite IH.
Qed.

Lemma substring_all (s : string) : substring 0 (String.length s) s = s.
Proof. induction s as [|a s IH]; simpl; [reflexivity | now rewrite IH]. Qed.

Lemma substring_skip_app (u v : string) (n : nat) :
  substring (String.length u) n (u ++ v) = substring 0 n v.
Proof. induction u as [|a u IH]; simpl; [reflexivity | exact IH]. Qed.

Lemma length_app (u v : string) :
  String.length (u ++ v) = (String.length u + String.length v)%nat.
Proof. induction u as [|a u IH]; simpl; [reflexivity | now rewrite IH]. Qed.

Lemma sliceTo_app (u v : string) : strings.sliceTo (u ++ v) (strings.len u) = u.
Proof.
  unfold strings.sliceTo, strings.len. rewrite Nat2Z.id.
  apply substring_prefix_app.
Qed.

Lemma sliceFrom_app (u v : string) :
  strings.sliceFrom (u ++ v) (strings.len u) = v.
Proof.
  unfold strings.sliceFrom, strings.len. rewrite Nat2Z.id.
  rewrite substring_skip_app, length_app.
  replace (String.length u + String.length v - String.length u)%nat
    with (String.length v) by lia.
  apply substring_all.
Qed.

Lemma sliceFrom_app_sep (u : string) (c : ascii) (p : string) :
  strings.sliceFrom (u ++ String c p) (strings.len u + 1) = p.
Proof.
  replace (u ++ String c p) with ((u ++ String c "") ++ p).
  - replace (strings.len u + 1) with (strings.len (u ++ String c "")).
    + apply sliceFrom_app.
    + unfold strings.len. rewrite length_app. simpl. lia.
  - induction u as [|a u IH]; simpl; [reflexivity | now rewrite IH].
Qed.

(** A string splits around the first and around the last occurrence of
    a byte. *)
Lemma split_first (c : ascii) (s : string) :
  strings.hasByte c s = true ->
  s = beforeFirst c s ++ String c (afterFirst c s)
  /\ strings.hasByte c (beforeFirst c s) = false.
Proof.
  induction s as [|a s IH]; simpl; [discriminate|].
  destruct (Ascii.eqb a c) eqn:E; simpl; intros H.
  - apply Ascii.eqb_eq in E. subst a. now split.
  - rewrite E. simpl. destruct (IH H) as [H1 H2]. split; [|exact H2].
    now rewrite <- H1.
Qed.

Lemma beforeFirst_none (c : ascii) (s : string) :
  strings.hasByte c s = false -> beforeFirst c s = s /\ afterFirst c s = "".
Proof.
  induction s as [|a s IH]; simpl; [now split|].
  destruct (Ascii.eqb a c); simpl; [discriminate|].
  intros H. destruct (IH H) as [-> ->]. now split.
Qed.

Lemma hasByte_app (c : ascii) (u v : string) :
  strings.hasByte c (u ++ v) = strings.hasByte c u || strings.hasByte c v.
Proof.
  induction u as [|a u IH]; simpl; [reflexivity|].
  rewrite IH. now rewrite orb_assoc.
Qed.

Lemma hasByte_sep (c : ascii) (u p : string) :
  strings.hasByte c (u ++ String c p) = true.
Proof.
  rewrite hasByte_app. cbn [strings.hasByte].
  now rewrite Ascii.eqb_refl, orb_true_r.
Qed.

Lemma split_last (c : ascii) (s : string) :
  strings.hasByte c s = true ->
  s = beforeLast c s ++ String c (afterLast c s)
  /\ strings.hasByte c (afterLast c s) = false.
Proof.
  induction s as [|a s IH]; simpl; [discriminate|].
  destruct (strings.hasByte c s) eqn:Hs.
  - intros _. destruct (IH eq_refl) as [H1 H2]. split; [|exact H2].
    simpl. now rewrite <- H1.
  - rewrite orb_false_r. intros E. apply Ascii.eqb_eq in E. subst a.
    now split.
Qed.

Lemma IndexByte_none (c : ascii) (s : string) :
  strings.hasByte c s = false -> strings.IndexByte s c = -1.
Proof.
  induction s as [|a s IH]; simpl; [reflexivity|].
  destruct (Ascii.eqb a c); simpl; [discriminate|].
  intros H. now rewrite (IH H).
Qed.

Lemma IndexByte_app (c : ascii) (u p : string) :
  strings.hasByte c u = false ->
  strings.IndexByte (u ++ String c p) c = strings.len u.
Proof.
  induction u as [|a u IH]; simpl.
  - now rewrite Ascii.eqb_refl.
  - destruct (Ascii.eqb a c); simpl; [discriminate|].
    intros H. rewrite (IH H), len_String.
    pose proof (len_nonneg u).
    destruct (strings.len u <? 0) eqn:E;
      [apply Z.ltb_lt in E; lia | reflexivity].
Qed.

Lemma IndexByte_range (c : ascii) (s : string) :
  -1 <= strings.IndexByte s c < strings.len s.
Proof.
  induction s as [|a s IH]; [unfold strings.len; simpl; lia|].
  rewrite len_String. simpl. pose proof (len_nonneg s).
  destruct (Ascii.eqb a c); [lia|].
  destruct (strings.IndexByte s c <? 0) eqn:E; [lia|].
  apply Z.ltb_ge in E. lia.
Qed.

Lemma LastIndexByte_none (c : ascii) (s : string) :
  strings.hasByte c s = false -> strings.LastIndexByte s c = -1.
Proof.
  induction s as [|a s IH]; simpl; [reflexivity|].
  destruct (Ascii.eqb a c); simpl; [discriminate|].
  intros H. now rewrite (IH H).
Qed.

Lemma LastIndexByte_app (c : ascii) (u p : string) :
  strings.hasByte c p = false ->
  strings.LastIndexByte (u ++ String c p) c = strings.len u.
Proof.
  intros H. induction u as [|a u IH]; simpl.
  - rewrite (LastIndexByte_none _ _ H). simpl. now rewrite Ascii.eqb_refl.
  - rewrite IH, len_String. pose proof (len_nonneg u).
    destruct (0 <=? strings.len u) eqn:E;
      [reflexivity | apply Z.leb_gt in E; lia].
Qed.

Lemma LastIndexByte_range (c : ascii) (s : string) :
  -1 <= strings.LastIndexByte s c < strings.len s.
Proof.
  induction s as [|a s IH]; [unfold strings.len; simpl; lia|].
  rewrite len_String. simpl. pose proof (len_nonneg s).
  destruct (0 <=? strings.LastIndexByte s c) eqn:E.
  - apply Z.leb_le in E. lia.
  - destruct (Ascii.eqb a c); lia.
Qed.

Lemma prefix_app (p r : string) : prefix p (p ++ r) = true.
Proof.
  induction p as [|a p IH]; simpl; [now destruct r|].
  destruct (ascii_dec a a); [exact IH | contradiction].
Qed.

Lemma prefix_split (p s : string) :
  prefix p s = true -> exists r, s = p ++ r.
Proof.
  revert s. induction p as [|a p IH]; intros s.
  - intros _. now exists s.
  - destruct s as [|b s]; simpl; [discriminate|].
    destruct (ascii_dec a b) as [->|]; [|discriminate].
    intros H. destruct (IH _ H) as [r ->]. now exists r.
Qed.

Lemma TrimPrefix_app (p r : string) : strings.TrimPrefix (p ++ r) p = r.
Proof.
  unfold strings.TrimPrefix, strings.HasPrefix.
  rewrite prefix_app. apply sliceFrom_app.
Qed.

Lemma TrimPrefix_none (p s : string) :
  prefix p s = false -> strings.TrimPrefix s p = s.
Proof.
  intros H. unfold strings.TrimPrefix, strings.HasPrefix. now rewrite H.
Qed.

Lemma substring_cut (n : nat) (t : string) :
  (n <= String.length t)%nat ->
  exists suffix, t = substring 0 n t ++ suffix
                 /\ String.length (substring 0 n t) = n.
Proof.
  revert t. induction n as [|n IH]; intros t H.
  - exists t. now destruct t.
  - destruct t as [|a t]; simpl in H; [lia|].
    destruct (IH t) as (suffix & H1 & H2); [lia|].
    exists suffix. simpl. split; [now rewrite <- H1 | now rewrite H2].
Qed.

Lemma sliceTo_cut (t : string) (n : Z) :
  0 <= n <= strings.len t ->
  exists suffix, t = strings.sliceTo t n ++ suffix
                 /\ strings.len (strings.sliceTo t n) = n.
Proof.
  intros H. unfold strings.sliceTo, strings.len in *.
  destruct (@substring_cut (Z.to_nat n) t) as (suffix & H1 & H2); [lia|].
  exists suffix. split; [exact H1 | rewrite H2; lia].
Qed.

Lemma Count_nonneg (c : ascii) (s : string) : 0 <= strings.Count s c.
Proof.
  induction s as [|a s IH]; simpl; [lia|]. destruct (Ascii.eqb a c); lia.
Qed.

Lemma Count_none (c : ascii) (s : string) :
  strings.hasByte c s = false -> strings.Count s c = 0.
Proof.
  induction s as [|a s IH]; simpl; [reflexivity|].
  destruct (Ascii.eqb a c); simpl; [discriminate|]. intros H. now rewrite IH.
Qed.

Lemma Count_pos (c : ascii) (s : string) :
  strings.hasByte c s = true -> 1 <= strings.Count s c.
Proof.
  induction s as [|a s IH]; cbn [strings.hasByte strings.Count];
    [discriminate|].
  pose proof (Count_nonneg c s).
  destruct (Ascii.eqb a c); cbn [orb]; intros Hc; [lia|].
  specialize (IH Hc). lia.
Qed.

Lemma Count_app (c : ascii) (u v : string) :
  strings.Count (u ++ v) c = strings.Count u c + strings.Count v c.
Proof. induction u as [|a u IH]; simpl; [reflexivity | rewrite IH; lia]. Qed.

Lemma splitLoop_none (c : ascii) (k : nat) (s : string) :
  strings.hasByte c s = false -> strings.splitLoop k s c = [s].
Proof.
  intros H. destruct k; simpl; [reflexivity|].
  now rewrite (IndexByte_none _ _ H).
Qed.

Lemma splitLoop_step (c : ascii) (k : nat) (u p : string) :
  strings.hasByte c u = false ->
  strings.splitLoop (Datatypes.S k) (u ++ String c p) c
  = u :: strings.splitLoop k p c.
Proof.
  intros H. simpl. rewrite (IndexByte_app _ _ p H).
  pose proof (len_nonneg u).
  destruct (strings.len u <? 0) eqn:E; [apply Z.ltb_lt in E; lia|].
  now rewrite sliceTo_app, sliceFrom_app_sep.
Qed.

Lemma splitLoop_nonempty (c : ascii) (k : nat) (s : string) :
  strings.splitLoop k s c <> [].
Proof.
  destruct k; simpl; [discriminate|].
  destruct (strings.IndexByte s c <? 0); discriminate.
Qed.

(** [SplitN s c 2] cuts at the first separator, when there is one. *)
Lemma SplitN_2_cases (c : ascii) (s : string) :
  strings.SplitN s c 2
  = if strings.hasByte c s then [beforeFirst c s; afterFirst c s] else [s].
Proof.
  unfold strings.SplitN, strings.genSplit. simpl Z.to_nat.
  change (Pos.to_nat 1) with 1%nat.
  destruct (strings.hasByte c s) eqn:H.
  - destruct (split_first _ _ H) as [H1 H2].
    rewrite H1 at 1. now rewrite (splitLoop_step _ 0%nat _ _ H2).
  - now apply splitLoop_none.
Qed.

Lemma Split_unfold (c : ascii) (s : string) :
  strings.Split s c = strings.splitLoop (Z.to_nat (strings.Count s c)) s c.
Proof.
  unfold strings.Split, strings.genSplit.
  change (-1 =? 0) with false. change (-1 <? 0) with true. cbv beta iota zeta.
  now replace (strings.Count s c + 1 - 1) with (strings.Count s c) by lia.
Qed.

(** [Split s c] has exactly two parts when [s] holds the separator
    exactly once, and the parts are then the text on either side. *)
Lemma Split_two_parts (c : ascii) (s a b : string) :
  strings.Split s c = [a; b]
  <-> s = a ++ String c b
      /\ strings.hasByte c a = false /\ strings.hasByte c b = false.
Proof.
  rewrite Split_unfold. split.
  - intros H. destruct (strings.hasByte c s) eqn:Hs.
    + destruct (split_first _ _ Hs) as [H1 H2].
      set (u := beforeFirst c s) in *. set (p := afterFirst c s) in *.
      rewrite H1 in H. rewrite Count_app in H. simpl strings.Count in H.
      rewrite Ascii.eqb_refl, (Count_none _ _ H2) in H.
      pose proof (Count_nonneg c p) as Hp.
      replace (0 + (1 + strings.Count p c)) with (Z.succ (strings.Count p c))
        in H by lia.
      rewrite Z2Nat.inj_succ in H by lia.
      rewrite (splitLoop_step _ _ _ _ H2) in H.
      injection H as Ha Hb. subst a.
      destruct (strings.hasByte c p) eqn:Hcp.
      * exfalso. destruct (split_first _ _ Hcp) as [H3 H4].
        pose proof (Count_pos _ _ Hcp) as Hpos.
        destruct (Z.to_nat (strings.Count p c)) eqn:Hk; [lia|].
        rewrite H3, (splitLoop_step _ _ _ _ H4) in Hb.
        injection Hb as _ Hb. now apply splitLoop_nonempty in Hb.
      * rewrite (splitLoop_none _ _ _ Hcp) in Hb. injection Hb as Hb.
        subst b. now repeat split.
    + rewrite (splitLoop_none _ _ _ Hs) in H. discriminate.
  - intros (-> & Ha & Hb).
    rewrite Count_app. simpl strings.Count.
    rewrite Ascii.eqb_refl, (Count_none _ _ Ha), (Count_none _ _ Hb).
    change (Z.to_nat (0 + (1 + 0))) with 1%nat.
    rewrite (splitLoop_step _ _ _ _ Ha). reflexivity.
Qed.

(** ** Credentials *)

(** C2: [parseCreds s] fails exactly when [s] is empty or the text
    before its first colon is empty; otherwise it returns the text before
    and the text after the first colon, the latter being empty when [s]
    has no colon. *)
Theorem parseCreds_spec (s : string) :
  ((exists e, parseCreds s = Err e)
   <-> (s = "" \/ beforeFirst COLON s = ""))
  /\ (parseCreds s
      = if String.eqb s "" then Err "credentials can't be empty"
        else if String.eqb (beforeFirst COLON s) "" then
               Err "username can't be empty"
             else Ok (beforeFirst COLON s, afterFirst COLON s))
  /\ (strings.hasByte COLON s = false -> afterFirst COLON s = "")
  /\ (forall u p, strings.hasByte COLON u = false ->
                  s = u ++ String COLON p ->
                  beforeFirst COLON s = u /\ afterFirst COLON s = p).
Proof.
  assert (E : parseCreds s
      = if String.eqb s "" then Err "credentials can't be empty"
        else if String.eqb (beforeFirst COLON s) "" then
               Err "username can't be empty"
             else Ok (beforeFirst COLON s, afterFirst COLON s)).
  { unfold parseCreds. destruct (String.eqb s "") eqn:Es; [reflexivity|].
    rewrite SplitN_2_cases. destruct (strings.hasByte COLON s) eqn:H.
    - simpl. destruct (String.eqb (beforeFirst COLON s) ""); reflexivity.
    - destruct (beforeFirst_none _ _ H) as [-> ->]. simpl. now rewrite Es. }
  split; [|split; [exact E|split]].
  - rewrite E. split.
    + intros [e He]. destruct (String.eqb s "") eqn:Es.
      * left. now apply String.eqb_eq.
      * right. destruct (String.eqb (beforeFirst COLON s) "") eqn:Eb;
          [now apply String.eqb_eq | discriminate].
    + intros [-> | Hb]; [now eexists|].
      destruct (String.eqb s ""); [now eexists|].
      rewrite Hb. now eexists.
  - intros H. now destruct (beforeFirst_none _ _ H).
  - intros u p Hu ->. clear E. induction u as [|a u IH]; simpl.
    + rewrite ?Ascii.eqb_refl. now split.
    + simpl in Hu. destruct (Ascii.eqb a COLON); [discriminate|].
      destruct (IH Hu) as [-> ->]. now split.
Qed.

(** ** Display helpers *)

Lemma fold_left_append_map {A B} (g : list B -> A -> list B) (f : A -> B) :
  (forall acc x, g acc x = (acc ++ [f x])%list) ->
  forall l acc, fold_left g l acc = (acc ++ map f l)%list.
Proof.
  intros Hg. induction l as [|x l IH]; intros acc; simpl.
  - now rewrite app_nil_r.
  - now rewrite IH, Hg, <- app_assoc.
Qed.

Lemma last_split_unique (c : ascii) (name tag : string) :
  strings.hasByte c tag = false ->
  beforeLast c (name ++ String c tag) = name
  /\ afterLast c (name ++ String c tag) = tag.
Proof.
  intros H. induction name as [|a name [IH1 IH2]]; simpl.
  - now rewrite H.
  - rewrite hasByte_sep. now rewrite IH1, IH2.
Qed.

Lemma repoTagPair_code (t : string) :
  (let idx := strings.LastIndexByte t COLON in
   if idx =? -1 then ["errorRepoTag"; "errorRepoTag"]
   else [strings.sliceTo t idx; strings.sliceFrom t (idx + 1)])
  = repoTagPairOf t.
Proof.
  unfold repoTagPairOf. cbv zeta.
  destruct (strings.hasByte COLON t) eqn:H.
  - destruct (split_last _ _ H) as [H1 H2].
    set (u := beforeLast COLON t) in *. set (p := afterLast COLON t) in *.
    rewrite H1, (LastIndexByte_app _ u _ H2).
    pose proof (len_nonneg u).
    destruct (strings.len u =? -1) eqn:E; [apply Z.eqb_eq in E; lia|].
    now rewrite sliceTo_app, sliceFrom_app_sep.
  - now rewrite (LastIndexByte_none _ _ H).
Qed.

Lemma normalizeRepoTagPair_map (T : list string) (n : string) :
  T <> [] -> normalizeRepoTagPair T n = map repoTagPairOf T.
Proof.
  intros HT. unfold normalizeRepoTagPair.
  destruct T as [|t T]; [contradiction|].
  change (Z.of_nat (List.length (t :: T)) =? 0) with false. cbv iota.
  rewrite (fold_left_append_map _ repoTagPairOf); [reflexivity|].
  intros acc x. rewrite <- repoTagPair_code. cbv zeta.
  now destruct (strings.LastIndexByte x COLON =? -1).
Qed.

(** C3: with no tag the result is the single pair [(n, "<none>")]; with
    tags there is one pair per tag, in order: the tag cut at its last
    colon, or the error pair when the tag has no colon. *)
Theorem normalizeRepoTagPair_spec (T : list string) (n : string) :
  normalizeRepoTagPair [] n = [[n; "<none>"]]
  /\ (T <> [] ->
      List.length (normalizeRepoTagPair T n) = List.length T
      /\ forall i t, nth_error T i = Some t ->
           (strings.hasByte COLON t = false ->
            nth_error (normalizeRepoTagPair T n) i
            = Some ["errorRepoTag"; "errorRepoTag"])
           /\ (forall name tag,
                 t = name ++ String COLON tag ->
                 strings.hasByte COLON tag = false ->
                 nth_error (normalizeRepoTagPair T n) i = Some [name; tag])).
Proof.
  split; [reflexivity|]. intros HT.
  rewrite (normalizeRepoTagPair_map n HT). split; [apply length_map|].
  intros i t Hi. rewrite nth_error_map, Hi. simpl. unfold repoTagPairOf.
  split.
  - now intros ->.
  - intros name tag -> Htag.
    rewrite hasByte_sep.
    now destruct (last_split_unique COLON name tag Htag) as [-> ->].
Qed.

Lemma Split_length (c : ascii) (s : string) :
  Z.of_nat (List.length (strings.Split s c)) = strings.Count s c + 1.
Proof.
  rewrite Split_unfold.
  pose proof (Count_nonneg c s) as Hn.
  remember (Z.to_nat (strings.Count s c)) as k eqn:Hk.
  assert (Hc : strings.Count s c = Z.of_nat k) by lia. rewrite Hc. clear Hk Hn.
  revert s Hc. induction k as [|k IH]; intros s Hc.
  - simpl. lia.
  - destruct (strings.hasByte c s) eqn:H.
    + destruct (split_first _ _ H) as [H1 H2].
      set (u := beforeFirst c s) in *. set (p := afterFirst c s) in *.
      rewrite H1 in Hc |- *. rewrite (splitLoop_step _ _ _ _ H2).
      rewrite Count_app in Hc. simpl strings.Count in Hc.
      rewrite Ascii.eqb_refl, (Count_none _ _ H2) in Hc.
      simpl List.length. rewrite Nat2Z.inj_succ, (IH p); lia.
    + rewrite (Count_none _ _ H) in Hc. lia.
Qed.

(** C4: with no digest the result is [("<none>", "<none>")]; otherwise
    the first digest is split on "@": exactly two parts are returned as
    they are, anything else gives [("errorName", "errorRepoDigest")].
    Two parts arise exactly when the digest holds one "@", and they are
    the text before and after it. *)
Theorem normalizeRepoDigest_spec (d : string) (rest : list string) :
  normalizeRepoDigest [] = ("<none>", "<none>")
  /\ (forall a b, strings.Split d AT = [a; b] ->
                  normalizeRepoDigest (d :: rest) = (a, b))
  /\ ((forall a b, strings.Split d AT <> [a; b]) ->
      normalizeRepoDigest (d :: rest) = ("errorName", "errorRepoDigest"))
  /\ (forall a b, d = a ++ String AT b ->
                  strings.hasByte AT a = false ->
                  strings.hasByte AT b = false ->
                  normalizeRepoDigest (d :: rest) = (a, b))
  /\ (strings.Count d AT <> 1 ->
      normalizeRepoDigest (d :: rest) = ("errorName", "errorRepoDigest")).
Proof.
  assert (Two : forall a b, strings.Split d AT = [a; b] ->
                            normalizeRepoDigest (d :: rest) = (a, b)).
  { intros a b H. unfold normalizeRepoDigest. now rewrite H. }
  assert (Other : Z.of_nat (List.length (strings.Split d AT)) <> 2 ->
                  normalizeRepoDigest (d :: rest)
                  = ("errorName", "errorRepoDigest")).
  { intros H. unfold normalizeRepoDigest. cbv zeta.
    destruct (Z.of_nat (List.length (strings.Split d AT)) =? 2) eqn:E;
      [apply Z.eqb_eq in E; contradiction | reflexivity]. }
  split; [reflexivity|]. split; [exact Two|]. split; [|split].
  - intros H. apply Other. intros HL.
    destruct (strings.Split d AT) as [|a [|b [|x l]]] eqn:E;
      simpl in HL; try lia.
    now apply (H a b).
  - intros a b Hd Ha Hb. apply Two. apply Split_two_parts. now repeat split.
  - intros H. apply Other. rewrite Split_length. lia.
Qed.

(** ** The order on images *)

Lemma ascii_compare_refl (a : ascii) : Ascii.compare a a = Eq.
Proof. unfold Ascii.compare. apply N.compare_refl. Qed.

Lemma string_compare_refl (s : string) : String.compare s s = Eq.
Proof.
  induction s as [|a s IH]; simpl; [reflexivity|].
  now rewrite ascii_compare_refl.
Qed.

Lemma string_ltb_irrefl (s : string) : String.ltb s s = false.
Proof. unfold String.ltb. now rewrite string_compare_refl. Qed.

Lemma string_ltb_asym (s t : string) :
  String.ltb s t = true -> String.ltb t s = false.
Proof.
  unfold String.ltb. rewrite (String.compare_antisym t s).
  now destruct (String.compare s t).
Qed.

Lemma string_compare_lt_trans (s t u : string) :
  String.compare s t = Lt -> String.compare t u = Lt ->
  String.compare s u = Lt.
Proof.
  revert t u. induction s as [|a s IH]; intros [|b t] [|c u]; simpl;
    try discriminate; try reflexivity.
  unfold Ascii.compare.
  destruct (N.compare_spec (N_of_ascii a) (N_of_ascii b)) as [Hab|Hab|Hab];
    try discriminate;
    destruct (N.compare_spec (N_of_ascii b) (N_of_ascii c)) as [Hbc|Hbc|Hbc];
    try discriminate; intros H1 H2.
  - rewrite Hab, Hbc, N.compare_refl. now apply (IH t u).
  - rewrite Hab. now apply N.compare_lt_iff in Hbc as ->.
  - rewrite <- Hbc. now apply N.compare_lt_iff in Hab as ->.
  - assert (H : (N_of_ascii a < N_of_ascii c)%N) by lia.
    now apply N.compare_lt_iff in H as ->.
Qed.

Lemma string_ltb_trans (s t u : string) :
  String.ltb s t = true -> String.ltb t u = true -> String.ltb s u = true.
Proof.
  unfold String.ltb. intros H1 H2.
  rewrite (@string_compare_lt_trans s t u); [reflexivity| |].
  - now destruct (String.compare s t).
  - now destruct (String.compare t u).
Qed.

(** C1, as the code has it: two images are compared by their first tag
    when both have one, else by their first digest when both have one,
    else by identifier, in ascending bytewise order.  The comparison is
    strict (irreflexive and asymmetric), and it is transitive among
    images of the same shape.  Images with equal keys are left unordered,
    and nothing is said across shapes. *)
Theorem imageLess_spec :
  (forall x y tx ty, hd_error (RepoTags x) = Some tx ->
                     hd_error (RepoTags y) = Some ty ->
                     imageLess x y = String.ltb tx ty)
  /\ (forall x y dx dy, hasTag x && hasTag y = false ->
                        hd_error (RepoDigests x) = Some dx ->
                        hd_error (RepoDigests y) = Some dy ->
                        imageLess x y = String.ltb dx dy)
  /\ (forall x y, hasTag x && hasTag y = false ->
                  hasDigest x && hasDigest y = false ->
                  imageLess x y = String.ltb (Id x) (Id y))
  /\ (forall x, imageLess x x = false)
  /\ (forall x y, imageLess x y = true -> imageLess y x = false)
  /\ (forall x y z, sameShape x y = true -> sameShape y z = true ->
                    imageLess x y = true -> imageLess y z = true ->
                    imageLess x z = true)
  /\ (forall a i j x y, nth_error a i = Some x -> nth_error a j = Some y ->
                        imageByRef.Less a i j = Some (imageLess x y)).
Proof.
  unfold imageLess, sameShape, hasTag, hasDigest.
  repeat split.
  - intros x y tx ty. destruct (RepoTags x), (RepoTags y); simpl;
      try discriminate. now intros [= ->] [= ->].
  - intros x y dx dy.
    destruct (RepoTags x), (RepoTags y), (RepoDigests x), (RepoDigests y);
      simpl; try discriminate; now intros _ [= ->] [= ->].
  - intros x y.
    destruct (RepoTags x), (RepoTags y), (RepoDigests x), (RepoDigests y);
      simpl; try discriminate; reflexivity.
  - intros x. destruct (RepoTags x), (RepoDigests x);
      apply string_ltb_irrefl.
  - intros x y.
    destruct (RepoTags x), (RepoTags y), (RepoDigests x), (RepoDigests y);
      apply string_ltb_asym.
  - intros x y z.
    destruct (RepoTags x), (RepoTags y), (RepoTags z),
      (RepoDigests x), (RepoDigests y), (RepoDigests z);
      simpl; try discriminate; intros _ _; apply string_ltb_trans.
  - intros a i j x y Hi Hj. unfold imageByRef.Less. now rewrite Hi, Hj.
Qed.

(** C1, as stated, fails on the code: two images with the same first
    tag and different identifiers are not ordered either way, so ties
    are not broken by identifier; and three images of different shapes
    form a cycle, so the comparison is not a total order. *)
Lemma imageLess_not_total :
  (Id imgTagA1 <> Id imgTagA2
   /\ imageLess imgTagA1 imgTagA2 = false
   /\ imageLess imgTagA2 imgTagA1 = false)
  /\ (imageLess imgX imgY = true
      /\ imageLess imgY imgZ = true
      /\ imageLess imgZ imgX = true).
Proof. repeat split; try reflexivity. discriminate. Qed.

(** ** Commands *)

Section CommandFacts.

Context {S : Type} {client : ImageServiceClient S} {ext : Externals S}.

Lemma forEach_app {A} (l1 l2 : list A) (body : A -> M S unit) (w : World S) :
  forEach (l1 ++ l2) body w
  = match forEach l1 body w with
    | (w1, Ok _) => forEach l2 body w1
    | (w1, Err e) => (w1, Err e)
    end.
Proof.
  revert w. induction l1 as [|x l1 IH]; intros w; simpl; [reflexivity|].
  unfold bind. destruct (body x w) as [w1 [[]|e]]; [apply IH | reflexivity].
Qed.

Lemma forEach_emit {A} (l : list A) (f : A -> Event) (w : World S) :
  forEach l (fun x => emit (f x)) w
  = (mkWorld (service w) (trace w ++ map f l), Ok tt).
Proof.
  revert w. induction l as [|x l IH]; intros w; simpl.
  - rewrite app_nil_r. now destruct w.
  - unfold bind, emit at 1. rewrite IH. simpl.
    now rewrite <- app_assoc.
Qed.

(** *** rmi *)

Lemma RemoveImage_nonempty (id : string) (w : World S) :
  id <> "" ->
  RemoveImage id w
  = (mkWorld (fst (clientRemoveImage (service w) id))
             (trace w ++ [RpcRemoveImage id]),
     snd (clientRemoveImage (service w) id)).
Proof.
  intros H. unfold RemoveImage, rpc.
  destruct (String.eqb id "") eqn:E; [apply String.eqb_eq in E; contradiction|].
  now destruct (clientRemoveImage (service w) id).
Qed.

(** C9: [RemoveImage] on the empty identifier fails with
    "ImageID cannot be empty" and leaves the world as it was: no call
    reaches the service and nothing is added to the trace.  The empty
    identifier is the only one for which no request is recorded. *)
Theorem RemoveImage_empty (w : World S) :
  RemoveImage "" w = (w, Err "ImageID cannot be empty")
  /\ forall id, trace (fst (RemoveImage id w)) = trace w <-> id = "".
Proof.
  split; [reflexivity|]. intros id. split.
  - intros H. destruct (string_dec id "") as [E|E]; [exact E|].
    rewrite (RemoveImage_nonempty w E) in H. cbn [fst trace] in H.
    rewrite <- (app_nil_r (trace w)) in H at 2.
    apply app_inv_head in H. discriminate.
  - intros ->. reflexivity.
Qed.

Lemma removeImageStep_unfold (id : string) (w : World S) :
  removeImageStep id w
  = let w2 := mkWorld (fst (clientImageStatus (service w) id false))
                      (trace w ++ [RpcImageStatus id false]) in
    match snd (clientImageStatus (service w) id false) with
    | Err e => (w2, Err ("image status request for " ++ quote id
                         ++ " failed: " ++ e))
    | Ok status =>
        match RespImage status with
        | None => (w2, Err ("no such image " ++ id))
        | Some image =>
            match RemoveImage id w2 with
            | (w3, Err e) =>
                (w3, Err ("error of removing image " ++ quote id
                          ++ ": " ++ e))
            | (w3, Ok _) =>
                (mkWorld (service w3)
                   (trace w3
                    ++ map (fun repoTag =>
                              Print ("Deleted: " ++ repoTag ++ LF))
                           (RepoTags image)), Ok tt)
            end
        end
    end.
Proof.
  unfold removeImageStep, bind, onErr, ImageStatus, rpc.
  destruct (clientImageStatus (service w) id false) as [s' [status|e]];
    cbn [fst snd]; [|reflexivity].
  destruct (RespImage status) as [image|]; [|reflexivity].
  destruct (RemoveImage id _) as [w3 [[]|e]]; [|reflexivity].
  apply forEach_emit.
Qed.

(** The command is that loop over its arguments. *)
Lemma removeImageCommand_loop (context : cli.Context) (w : World S) :
  cli.args context <> [] ->
  getImageClient context = None ->
  removeImageCommand context w
  = forEach (cli.args context) removeImageStep w.
Proof.
  intros Hargs Hc. unfold removeImageCommand, cli.NArg. rewrite Hc.
  destruct (cli.args context); [contradiction | reflexivity].
Qed.

(** C7, as the code has it: the identifiers are handled in argument
    order.  Once the identifiers [done] have been handled without error,
    the next one, [id], starts with a non-verbose status request.  When
    that request fails, or its response carries no image ("no such
    image"), the command stops there with the trace ending in the status
    request: nothing is removed for [id] or for a later identifier.
    Otherwise, for a non-empty identifier, the remove request is sent:
    when the service answers with an error the command stops with that
    error wrapped, and when it answers with success one line
    "Deleted: tag" is printed for every tag of the status obtained
    before the removal, and the command goes on with the remaining
    identifiers.  For the empty identifier no remove request is sent:
    the command stops with "ImageID cannot be empty", wrapped. *)
Theorem removeImage_loop (context : cli.Context) (done rest : list string)
        (id : string) (w0 w1 : World S) :
  cli.args context = (done ++ id :: rest)%list ->
  getImageClient context = None ->
  forEach done removeImageStep w0 = (w1, Ok tt) ->
  let run := removeImageCommand context w0 in
  let w2 := mkWorld (fst (clientImageStatus (service w1) id false))
                    (trace w1 ++ [RpcImageStatus id false]) in
  match snd (clientImageStatus (service w1) id false) with
  | Err e =>
      run = (w2, Err ("image status request for " ++ quote id
                      ++ " failed: " ++ e))
  | Ok status =>
      match RespImage status with
      | None => run = (w2, Err ("no such image " ++ id))
      | Some image =>
          if String.eqb id "" then
            run = (w2, Err ("error of removing image " ++ quote id
                            ++ ": ImageID cannot be empty"))
          else
            let w3 := mkWorld (fst (clientRemoveImage (service w2) id))
                              (trace w2 ++ [RpcRemoveImage id]) in
            match snd (clientRemoveImage (service w2) id) with
            | Err e =>
                run = (w3, Err ("error of removing image " ++ quote id
                                ++ ": " ++ e))
            | Ok _ =>
                run = forEach rest removeImageStep
                        (mkWorld (service w3)
                           (trace w3
                            ++ map (fun repoTag =>
                                      Print ("Deleted: " ++ repoTag ++ LF))
                                   (RepoTags image)))
            end
      end
  end.
Proof.
  intros Hargs Hc Hdone run w2.
  assert (Hrun : run = match removeImageStep id w1 with
                       | (w', Ok _) => forEach rest removeImageStep w'
                       | (w', Err e) => (w', Err e)
                       end).
  { subst run.
    rewrite removeImageCommand_loop;
      [|rewrite Hargs; now destruct done|exact Hc].
    now rewrite Hargs, forEach_app, Hdone. }
  rewrite Hrun, removeImageStep_unfold. clear Hrun. cbv zeta. fold w2.
  destruct (snd (clientImageStatus (service w1) id false)) as [status|e];
    [|reflexivity].
  destruct (RespImage status) as [image|]; [|reflexivity].
  unfold RemoveImage, rpc, fail.
  destruct (String.eqb id "") eqn:E.
  - apply String.eqb_eq in E. subst id. reflexivity.
  - cbv zeta.
    destruct (clientRemoveImage (service w2) id) as [s3 [[]|e]];
      reflexivity.
Qed.


(** *** inspecti *)

(** C5, as the code has it: with an output value other than json,
    yaml and table, the first identifier is still looked up.  The
    command stops after that one status request, with nothing printed:
    with the error of the request, of the missing image or of the
    marshalling when there is one, and otherwise with
    "output option cannot be <value>". *)
Theorem imageStatus_invalid_output (context : cli.Context) (id : string)
        (rest : list string) (w : World S) :
  cli.args context = id :: rest ->
  getImageClient context = None ->
  cli.String context "output" <> "" ->
  cli.String context "output" <> "json" ->
  cli.String context "output" <> "yaml" ->
  cli.String context "output" <> "table" ->
  let output := cli.String context "output" in
  let verbose := negb (cli.Bool context "quiet") in
  let w1 := mkWorld (fst (clientImageStatus (service w) id verbose))
                    (trace w ++ [RpcImageStatus id verbose]) in
  imageStatusCommand context w
  = (w1,
     Err match snd (clientImageStatus (service w) id verbose) with
         | Err e => "image status for " ++ quote id
                    ++ " request failed: " ++ e
         | Ok r =>
             match RespImage r with
             | None => "no such image " ++ quote id ++ " present"
             | Some image =>
                 match protobufObjectToJSON image with
                 | Err e => "failed to marshal status to json for "
                            ++ quote id ++ ": " ++ e
                 | Ok _ => "output option cannot be " ++ output
                 end
             end
         end).
Proof.
  intros Hargs Hc He Hj Hy Ht output verbose w1.
  unfold imageStatusCommand, cli.NArg. rewrite Hargs, Hc.
  change (Z.of_nat (List.length (id :: rest)) =? 0) with false. cbv iota.
  fold verbose. fold output.
  destruct (String.eqb output "") eqn:E0;
    [apply String.eqb_eq in E0; contradiction|].
  cbn [forEach]. unfold bind at 1. unfold imageStatusStep.
  unfold bind at 1. unfold onErr at 1. unfold ImageStatus, rpc. subst w1.
  destruct (clientImageStatus (service w) id verbose) as [s' [r|e]];
    cbn [fst snd]; [|reflexivity].
  destruct (RespImage r) as [image|]; [|reflexivity].
  destruct (protobufObjectToJSON image) as [status|e]; [|reflexivity].
  destruct (String.eqb output "json") eqn:E1;
    [apply String.eqb_eq in E1; contradiction|].
  destruct (String.eqb output "yaml") eqn:E2;
    [apply String.eqb_eq in E2; contradiction|].
  destruct (String.eqb output "table") eqn:E3;
    [apply String.eqb_eq in E3; contradiction|].
  reflexivity.
Qed.

(** *** images *)

Lemma listImageCommand_unfold (context : cli.Context) (w : World S)
      (s' : S) (images : list Image) :
  getImageClient context = None ->
  clientListImages (service w) (cli.First context) = (s', Ok images) ->
  listImageCommand context w
  = let w1 := mkWorld s' (trace w ++ [RpcListImages (cli.First context)]) in
    let sorted := sort_Sort imageLess images in
    let output := cli.String context "output" in
    if String.eqb output "json" then outputProtobufObjAsJSON sorted w1
    else if String.eqb output "yaml" then outputProtobufObjAsYAML sorted w1
    else
      let verbose := cli.Bool context "verbose" in
      let showDigest := cli.Bool context "digests" in
      let quiet := cli.Bool context "quiet" in
      let noTrunc := cli.Bool context "no-trunc" in
      ((if negb verbose && negb quiet then
          if showDigest then
            emit (TabWrite
                   (row ["IMAGE"; "TAG"; "DIGEST"; "IMAGE ID"; "SIZE"]))
          else
            emit (TabWrite (row ["IMAGE"; "TAG"; "IMAGE ID"; "SIZE"]))
        else ret tt) ;;
       forEach sorted (listImageStep verbose showDigest quiet noTrunc) ;;
       emit TabFlush) w1.
Proof.
  intros Hc Hl. unfold listImageCommand. rewrite Hc.
  unfold bind at 1. unfold onErr, ListImages, rpc. rewrite Hl.
  cbv zeta.
  destruct (String.eqb (cli.String context "output") "json");
    [reflexivity|].
  destruct (String.eqb (cli.String context "output") "yaml"); reflexivity.
Qed.

Lemma eqb_neq_false (a b : string) : a <> b -> String.eqb a b = false.
Proof. intros H. now apply String.eqb_neq. Qed.

(** C10, as the code has it: when the output format is neither json
    nor yaml and --quiet is set, then, whether or not --verbose is set
    as well, the command prints the raw identifier of every listed
    image on a line of its own and nothing else: no header, no table
    row (the table writer is flushed empty) and no verbose block. *)
Theorem listImages_quiet (context : cli.Context) (w : World S)
        (s' : S) (images : list Image) :
  getImageClient context = None ->
  clientListImages (service w) (cli.First context) = (s', Ok images) ->
  cli.String context "output" <> "json" ->
  cli.String context "output" <> "yaml" ->
  cli.Bool context "quiet" = true ->
  listImageCommand context w
  = (mkWorld s'
       (trace w
        ++ RpcListImages (cli.First context)
           :: map (fun image => Print (Id image ++ LF))
                  (sort_Sort imageLess images)
        ++ [TabFlush]),
     Ok tt).
Proof.
  intros Hc Hl Hj Hy Hq. rewrite (listImageCommand_unfold _ _ Hc Hl).
  cbv zeta. rewrite (eqb_neq_false Hj), (eqb_neq_false Hy), Hq.
  rewrite andb_false_r. unfold bind, ret.
  change (listImageStep (cli.Bool context "verbose")
            (cli.Bool context "digests") true (cli.Bool context "no-trunc"))
    with (fun image : Image => @emit S (Print (Id image ++ LF))).
  rewrite forEach_emit. unfold emit. cbn [service trace].
  now rewrite <- !app_assoc.
Qed.

(** The identifier shown without --no-trunc, for any value of the
    constant [truncatedIDLen]. *)
Lemma displayID_cut (imageId : string) :
  0 <= truncatedIDLen ->
  exists t suffix,
    (imageId = "sha256:" ++ t
     \/ (prefix "sha256:" imageId = false /\ t = imageId))
    /\ t = displayID false imageId ++ suffix
    /\ (strings.len t <= truncatedIDLen -> displayID false imageId = t)
    /\ (truncatedIDLen < strings.len t ->
        strings.len (displayID false imageId) = truncatedIDLen).
Proof.
  intros Hlen. unfold displayID. cbn [negb].
  set (t := strings.TrimPrefix imageId "sha256:").
  assert (Ht : imageId = "sha256:" ++ t
               \/ (prefix "sha256:" imageId = false /\ t = imageId)).
  { destruct (prefix "sha256:" imageId) eqn:E.
    - left. destruct (prefix_split _ _ E) as [r Hr].
      subst t. rewrite Hr at 2. now rewrite TrimPrefix_app.
    - right. split; [reflexivity|]. now apply TrimPrefix_none. }
  destruct (strings.len t >? truncatedIDLen) eqn:E.
  - apply Z.gtb_lt in E.
    destruct (@sliceTo_cut t truncatedIDLen) as (suffix & H1 & H2); [lia|].
    exists t, suffix. repeat split; [exact Ht | exact H1 | lia | easy].
  - assert (strings.len t <= truncatedIDLen)
      by (rewrite Z.gtb_ltb in E; now apply Z.ltb_ge).
    exists t, "". repeat split; [exact Ht | | lia].
    clear. induction t as [|a t IH]; simpl; [reflexivity | now rewrite <- IH].
Qed.

(** With json output the sorted list goes to the serialiser and the
    loop over the images is not reached. *)
Lemma listImages_json (context : cli.Context) (w : World S)
      (s' : S) (images : list Image) :
  getImageClient context = None ->
  clientListImages (service w) (cli.First context) = (s', Ok images) ->
  cli.String context "output" = "json" ->
  listImageCommand context w
  = outputProtobufObjAsJSON (sort_Sort imageLess images)
      (mkWorld s' (trace w ++ [RpcListImages (cli.First context)])).
Proof.
  intros Hc Hl Hj. rewrite (listImageCommand_unfold _ _ Hc Hl).
  cbv zeta. now rewrite Hj.
Qed.

(** C8: when the service returns no image and the command renders the
    table (output neither json nor yaml, neither --quiet nor
    --verbose), the only thing written is the header line, and the
    command succeeds. *)
Theorem listImages_empty_table (context : cli.Context) (w : World S)
        (s' : S) :
  (forall l, Permutation (sort_Sort imageLess l) l) ->
  getImageClient context = None ->
  clientListImages (service w) (cli.First context) = (s', Ok []) ->
  cli.String context "output" <> "json" ->
  cli.String context "output" <> "yaml" ->
  cli.Bool context "verbose" = false ->
  cli.Bool context "quiet" = false ->
  listImageCommand context w
  = (mkWorld s'
       (trace w
        ++ [RpcListImages (cli.First context);
            TabWrite (row (if cli.Bool context "digests" then
                             ["IMAGE"; "TAG"; "DIGEST"; "IMAGE ID"; "SIZE"]
                           else ["IMAGE"; "TAG"; "IMAGE ID"; "SIZE"]));
            TabFlush]),
     Ok tt).
Proof.
  intros Hsort Hc Hl Hj Hy Hv Hq. rewrite (listImageCommand_unfold _ _ Hc Hl).
  cbv zeta. rewrite (eqb_neq_false Hj), (eqb_neq_false Hy), Hv, Hq.
  assert (Hnil : sort_Sort imageLess [] = []).
  { apply Permutation_nil. apply Permutation_sym, Hsort. }
  rewrite Hnil. cbn [negb andb forEach]. unfold bind, ret, emit.
  destruct (cli.Bool context "digests"); cbn [service trace];
    now rewrite <- !app_assoc.
Qed.

End CommandFacts.

(** ** Runs *)

(** Small runs of the helpers. *)

Example parseCreds_user_pass :
  parseCreds "bob:s3:cret" = Ok ("bob", "s3:cret").
Proof. reflexivity. Qed.

Example parseCreds_user_only : parseCreds "bob" = Ok ("bob", "").
Proof. reflexivity. Qed.

Example parseCreds_no_user :
  parseCreds ":pw" = Err "username can't be empty".
Proof. reflexivity. Qed.

Example normalizeRepoTagPair_port :
  normalizeRepoTagPair ["localhost:5000/busybox:1.28"; "busybox"] "x"
  = [["localhost:5000/busybox"; "1.28"]; ["errorRepoTag"; "errorRepoTag"]].
Proof. reflexivity. Qed.

Example normalizeRepoDigest_two_ats :
  normalizeRepoDigest ["a@b@c"] = ("errorName", "errorRepoDigest").
Proof. reflexivity. Qed.

Example normalizeRepoDigest_plain :
  normalizeRepoDigest ["busybox@sha256:ab"; "other"] = ("busybox", "sha256:ab").
Proof. reflexivity. Qed.

(** [pull alpine --creds ""] fails before any request. *)
Example pull_empty_creds :
  pullImageCommand (ext := onStore)
                   (cli.mkContext ["alpine"] [] [("creds", "")])
                   (emptyWorld [])
  = (emptyWorld [], Err "credentials can't be empty").
Proof. reflexivity. Qed.

Example pull_with_creds :
  pullImageCommand (ext := onStore)
                   (cli.mkContext ["alpine"] [] [("creds", "bob:pw")])
                   (emptyWorld [])
  = (mkWorld [] [RpcPullImage "alpine" (Some (mkAuth "bob" "pw"));
                 Print ("Image is up to date for alpine" ++ LF)],
     Ok tt).
Proof. reflexivity. Qed.

Example images_verbose :
  listImageCommand (ext := onStore) (cli.mkContext [] ["verbose"] [])
                   (emptyWorld [imgLong])
  = (mkWorld [imgLong]
       [RpcListImages "";
        Print ("ID: sha256:abcdef0123456789abcdef0123456789" ++ LF);
        Print ("RepoTags: busybox:1.28" ++ LF);
        Print ("RepoTags: busybox:latest" ++ LF);
        Print ("RepoDigests: busybox@sha256:77" ++ LF);
        Print ("Size: 1024" ++ LF);
        TabFlush],
     Ok tt).
Proof. reflexivity. Qed.

(** ** Runs on the concrete service *)

Lemma insertBy_perm (less : Image -> Image -> bool) (x : Image)
      (l : list Image) :
  Permutation (insertBy less x l) (x :: l).
Proof.
  induction l as [|y l IH]; simpl; [apply Permutation_refl|].
  destruct (less x y); [apply Permutation_refl|].
  eapply perm_trans; [apply perm_skip, IH | apply perm_swap].
Qed.

Lemma insertionSort_perm (less : Image -> Image -> bool) (l : list Image) :
  Permutation (insertionSort less l) l.
Proof.
  induction l as [|x l IH]; simpl; [apply perm_nil|].
  eapply perm_trans; [apply insertBy_perm | apply perm_skip, IH].
Qed.

Lemma imageLess_spec_witness :
  imageLess imgX imgY = String.ltb "a" "b".
Proof. exact (proj1 imageLess_spec imgX imgY "a" "b" eq_refl eq_refl). Defined.

Lemma parseCreds_spec_witness :
  exists e, parseCreds ":secret" = Err e.
Proof.
  apply (proj2 (proj1 (parseCreds_spec ":secret"))). right. reflexivity.
Defined.

Lemma normalizeRepoTagPair_spec_witness :
  nth_error
    (normalizeRepoTagPair ["localhost:5000/busybox:1.28"; "busybox"] "x") 0
  = Some ["localhost:5000/busybox"; "1.28"].
Proof.
  refine (proj2 (proj2 (proj2 (normalizeRepoTagPair_spec
                                 ["localhost:5000/busybox:1.28"; "busybox"]
                                 "x") _)
                       0%nat "localhost:5000/busybox:1.28" eq_refl)
                "localhost:5000/busybox" "1.28" eq_refl eq_refl).
  discriminate.
Defined.

Lemma normalizeRepoDigest_spec_witness :
  normalizeRepoDigest ["busybox@sha256:ab"; "other"] = ("busybox", "sha256:ab").
Proof.
  exact (proj1 (proj2 (proj2 (proj2
           (normalizeRepoDigest_spec "busybox@sha256:ab" ["other"]))))
           "busybox" "sha256:ab" eq_refl eq_refl eq_refl).
Defined.

(** C5, as stated, fails on the code: with the output value "xml" the
    status request for the first identifier is sent before the command
    fails, and for an unknown image the command fails with the error of
    the missing image, not with a validation error. *)
Lemma imageStatus_requests_before_validation :
  imageStatusCommand (ext := onStore)
    (cli.mkContext ["1"] [] [("output", "xml")]) (emptyWorld [imgY])
  = (mkWorld [imgY] [RpcImageStatus "1" true],
     Err "output option cannot be xml")
  /\ imageStatusCommand (ext := onStore)
       (cli.mkContext ["7"] [] [("output", "xml")]) (emptyWorld [imgY])
     = (mkWorld [imgY] [RpcImageStatus "7" true],
        Err ("no such image " ++ DQUOTE ++ "7" ++ DQUOTE ++ " present")).
Proof. split; reflexivity. Qed.

Lemma imageStatus_invalid_output_witness :
  imageStatusCommand (ext := onStore)
    (cli.mkContext ["2"; "1"] ["quiet"] [("output", "text")])
    (emptyWorld [imgY; imgZ])
  = (mkWorld [imgY; imgZ] [RpcImageStatus "2" false],
     Err "output option cannot be text").
Proof.
  refine (imageStatus_invalid_output (ext := onStore)
            (cli.mkContext ["2"; "1"] ["quiet"] [("output", "text")])
            (rest := ["1"]) (emptyWorld [imgY; imgZ])
            eq_refl eq_refl _ _ _ _); discriminate.
Defined.

(** C7, as stated, fails on the code: for the empty identifier, and a
    service whose status response carries an image for it, no remove
    request is sent; the command stops in [RemoveImage] with
    "ImageID cannot be empty". *)
Lemma removeImage_empty_identifier_no_request :
  clientImageStatus (ImageServiceClient := constClient) tt "" false
  = (tt, Ok (mkStatus (Some anyImage) []))
  /\ removeImageCommand (ext := plainExternals unit)
       (cli.mkContext [""] [] []) (emptyWorld tt)
     = (mkWorld tt [RpcImageStatus "" false],
        Err ("error of removing image " ++ DQUOTE ++ DQUOTE
             ++ ": ImageID cannot be empty")).
Proof. split; reflexivity. Qed.

Lemma removeImage_loop_witness :
  removeImageCommand (ext := onStore) (cli.mkContext ["1"; "3"; "2"] [] [])
                     (emptyWorld [imgY; imgZ])
  = (mkWorld [imgZ]
       [RpcImageStatus "1" false; RpcRemoveImage "1";
        Print ("Deleted: b" ++ LF); RpcImageStatus "3" false],
     Err "no such image 3").
Proof.
  exact (@removeImage_loop _ storeClient onStore
           (cli.mkContext ["1"; "3"; "2"] [] []) ["1"] ["2"] "3"
           (emptyWorld [imgY; imgZ])
           (mkWorld [imgZ]
              [RpcImageStatus "1" false; RpcRemoveImage "1";
               Print ("Deleted: b" ++ LF)])
           eq_refl eq_refl eq_refl).
Defined.

Lemma listImages_empty_table_witness :
  listImageCommand (ext := onStore) (cli.mkContext [] ["digests"] [])
                   (emptyWorld [])
  = (mkWorld []
       [RpcListImages "";
        TabWrite (row ["IMAGE"; "TAG"; "DIGEST"; "IMAGE ID"; "SIZE"]);
        TabFlush],
     Ok tt).
Proof.
  refine (listImages_empty_table (ext := onStore)
            (cli.mkContext [] ["digests"] []) (emptyWorld [])
            (insertionSort_perm imageLess) eq_refl eq_refl _ _
            eq_refl eq_refl); discriminate.
Defined.

(** C10, as stated, fails on the code: with --quiet, --verbose and
    --output json the identifiers are not printed; the list goes to the
    json serialiser. *)
Lemma listImages_json_ignores_quiet :
  listImageCommand (ext := onStore)
    (cli.mkContext [] ["quiet"; "verbose"] [("output", "json")])
    (emptyWorld [imgY; imgZ])
  = (mkWorld [imgY; imgZ] [RpcListImages ""; Emit "json" "1,2"], Ok tt).
Proof. reflexivity. Qed.

Lemma listImages_quiet_witness :
  listImageCommand (ext := onStore)
    (cli.mkContext [] ["quiet"; "verbose"] []) (emptyWorld [imgZ; imgY])
  = (mkWorld [imgZ; imgY]
       [RpcListImages ""; Print ("1" ++ LF); Print ("2" ++ LF); TabFlush],
     Ok tt).
Proof.
  refine (listImages_quiet (ext := onStore)
            (cli.mkContext [] ["quiet"; "verbose"] [])
            (emptyWorld [imgZ; imgY]) eq_refl eq_refl _ _ eq_refl);
    discriminate.
Defined.


(** * Further properties *)

(** ** Credentials *)

Lemma parseCreds_eq (s : string) :
  parseCreds s
  = if String.eqb s "" then Err "credentials can't be empty"
    else if String.eqb (beforeFirst COLON s) "" then
           Err "username can't be empty"
         else Ok (beforeFirst COLON s, afterFirst COLON s).
Proof.
  unfold parseCreds. destruct (String.eqb s "") eqn:Es; [reflexivity|].
  rewrite SplitN_2_cases. destruct (strings.hasByte COLON s) eqn:H.
  - simpl. destruct (String.eqb (beforeFirst COLON s) ""); reflexivity.
  - destruct (beforeFirst_none _ _ H) as [-> ->]. simpl. now rewrite Es.
Qed.

Lemma first_split_unique (c : ascii) (u p : string) :
  strings.hasByte c u = false ->
  beforeFirst c (u ++ String c p) = u /\ afterFirst c (u ++ String c p) = p.
Proof.
  intros H. induction u as [|a u IH]; cbn [append beforeFirst afterFirst].
  - now rewrite Ascii.eqb_refl.
  - cbn [strings.hasByte] in H. destruct (Ascii.eqb a c); [discriminate|].
    destruct (IH H) as [-> ->]. now split.
Qed.

(** X1: [getAuth] accepts exactly the strings "user" and "user:pass"
    with a non-empty, colon-free user; the password is everything after
    the first colon and may itself hold colons, or be empty. *)
Theorem getAuth_accepts (creds u p : string) :
  getAuth creds = Ok (mkAuth u p)
  <-> u <> "" /\ strings.hasByte COLON u = false
      /\ (creds = joinCreds (mkAuth u p) \/ (creds = u /\ p = "")).
Proof.
  unfold getAuth, joinCreds. cbn [AuthUsername AuthPassword].
  rewrite parseCreds_eq. split.
  - destruct (String.eqb creds "") eqn:Es; [discriminate|].
    destruct (String.eqb (beforeFirst COLON creds) "") eqn:Eb; [discriminate|].
    intros [= <- <-]. apply String.eqb_neq in Eb. split; [exact Eb|].
    destruct (strings.hasByte COLON creds) eqn:H.
    + destruct (split_first _ _ H) as [H1 H2]. split; [exact H2|].
      left. exact H1.
    + destruct (beforeFirst_none _ _ H) as [H1 H2]. rewrite H1, H2.
      split; [exact H|]. right. now split.
  - intros (Hu & Hfree & [-> | [-> ->]]).
    + destruct (first_split_unique COLON u p Hfree) as [-> ->].
      destruct u as [|a u]; [contradiction|]. cbn [append String.eqb].
      destruct (String.eqb (String a u) "") eqn:E;
        [apply String.eqb_eq in E; discriminate | reflexivity].
    + destruct (beforeFirst_none _ _ Hfree) as [-> ->].
      destruct (String.eqb u "") eqn:E;
        [apply String.eqb_eq in E; contradiction | reflexivity].
Qed.

Lemma getAuth_accepts_witness :
  getAuth "bob:s3:cret" = Ok (mkAuth "bob" "s3:cret").
Proof.
  apply (proj2 (getAuth_accepts "bob:s3:cret" "bob" "s3:cret")).
  split; [discriminate|]. split; [reflexivity|]. left. reflexivity.
Defined.

(** ** Display helpers *)

(** X2: the result of [normalizeRepoTagPair] is never empty, has one
    entry per tag (one entry when there is no tag), and every entry has
    exactly two fields, so that reading fields 0 and 1 is in range. *)
Theorem normalizeRepoTagPair_shape (T : list string) (n : string) :
  List.length (normalizeRepoTagPair T n) = Nat.max 1 (List.length T)
  /\ Forall (fun pair => List.length pair = 2%nat) (normalizeRepoTagPair T n).
Proof.
  destruct T as [|t T]; [split; [reflexivity | now repeat constructor]|].
  rewrite normalizeRepoTagPair_map by discriminate. split.
  - rewrite length_map. simpl. lia.
  - apply Forall_map, Forall_forall. intros x _. unfold repoTagPairOf.
    now destruct (strings.hasByte COLON x).
Qed.

(** X3: for a tag that holds a colon the pair is never the error pair
    by accident of the cut: joining name and tag with a colon gives the
    repository tag back, and the tag part holds no colon. *)
Theorem normalizeRepoTagPair_rejoin (T : list string) (n : string)
        (i : nat) (t : string) :
  nth_error T i = Some t ->
  strings.hasByte COLON t = true ->
  exists name tag,
    nth_error (normalizeRepoTagPair T n) i = Some [name; tag]
    /\ t = name ++ String COLON tag
    /\ strings.hasByte COLON tag = false.
Proof.
  intros Hi Ht.
  assert (HT : T <> []) by (intros ->; now destruct i).
  rewrite (normalizeRepoTagPair_map n HT), nth_error_map, Hi.
  cbn [option_map]. unfold repoTagPairOf. rewrite Ht.
  destruct (split_last _ _ Ht) as [H1 H2].
  now exists (beforeLast COLON t), (afterLast COLON t).
Qed.

Lemma normalizeRepoTagPair_rejoin_witness :
  exists name tag,
    nth_error (normalizeRepoTagPair ["reg:5000/app:v1"] "x") 0
    = Some [name; tag]
    /\ "reg:5000/app:v1" = name ++ String COLON tag
    /\ strings.hasByte COLON tag = false.
Proof.
  exact (normalizeRepoTagPair_rejoin ["reg:5000/app:v1"] "x" 0
           eq_refl eq_refl).
Defined.

(** X4: when the first digest holds exactly one "@", the two results
    of [normalizeRepoDigest] joined by "@" give that digest back, and
    neither holds an "@"; the other digests play no part. *)
Theorem normalizeRepoDigest_rejoin (d : string) (rest : list string) :
  strings.Count d AT = 1 ->
  d = fst (normalizeRepoDigest (d :: rest))
      ++ String AT (snd (normalizeRepoDigest (d :: rest)))
  /\ strings.hasByte AT (fst (normalizeRepoDigest (d :: rest))) = false
  /\ strings.hasByte AT (snd (normalizeRepoDigest (d :: rest))) = false.
Proof.
  intros Hc. pose proof (Split_length AT d) as HL. rewrite Hc in HL.
  unfold normalizeRepoDigest. cbv zeta.
  destruct (strings.Split d AT) as [|a [|b [|x l]]] eqn:E;
    cbn [List.length] in HL; try lia.
  cbn. now apply Split_two_parts in E.
Qed.

Lemma normalizeRepoDigest_rejoin_witness :
  "busybox@sha256:ab"
  = fst (normalizeRepoDigest ["busybox@sha256:ab"])
    ++ String AT (snd (normalizeRepoDigest ["busybox@sha256:ab"]))
  /\ strings.hasByte AT (fst (normalizeRepoDigest ["busybox@sha256:ab"]))
     = false
  /\ strings.hasByte AT (snd (normalizeRepoDigest ["busybox@sha256:ab"]))
     = false.
Proof.
  exact (normalizeRepoDigest_rejoin "busybox@sha256:ab" [] eq_refl).
Defined.

(** ** The order on images, and the sort interface *)

Lemma string_ltb_total (s t : string) :
  String.ltb s t = false -> String.ltb t s = false -> s = t.
Proof.
  unfold String.ltb. rewrite (String.compare_antisym t s).
  destruct (String.compare s t) eqn:E; try discriminate.
  intros _ _. now apply String.compare_eq_iff.
Qed.

Lemma imageLess_key (x y : Image) :
  imageLess x y = String.ltb (keyAgainst x y) (keyAgainst y x).
Proof.
  unfold imageLess, keyAgainst.
  now destruct (RepoTags x), (RepoTags y), (RepoDigests x), (RepoDigests y).
Qed.

(** X5: two images are left unordered by [Less] (neither is less than
    the other, so a sort may put them either way round) exactly when the
    strings compared for them are equal: the first tags when both have a
    tag, else the first digests when both have a digest, else the
    identifiers. *)
Theorem imageLess_incomparable (x y : Image) :
  (imageLess x y = false /\ imageLess y x = false)
  <-> keyAgainst x y = keyAgainst y x.
Proof.
  rewrite !imageLess_key. split.
  - intros [H1 H2]. now apply string_ltb_total.
  - intros ->. split; apply string_ltb_irrefl.
Qed.

Lemma set_length (a : list Image) (i : nat) (x : Image) :
  List.length (imageByRef.set a i x) = List.length a.
Proof.
  revert i. induction a as [|h a IH]; intros [|i]; simpl; try reflexivity.
  now rewrite IH.
Qed.

Lemma set_nth_same (a : list Image) (i : nat) (x : Image) :
  (i < List.length a)%nat -> nth_error (imageByRef.set a i x) i = Some x.
Proof.
  revert i. induction a as [|h a IH]; intros [|i]; simpl; try lia;
    [reflexivity|].
  intros H. apply IH. lia.
Qed.

Lemma set_nth_other (a : list Image) (i k : nat) (x : Image) :
  k <> i -> nth_error (imageByRef.set a i x) k = nth_error a k.
Proof.
  revert i k. induction a as [|h a IH]; intros [|i] [|k] H; simpl;
    try reflexivity; try contradiction.
  apply IH. lia.
Qed.

(** X6: [Swap] panics exactly when an index is out of range.  Otherwise
    the slice keeps its length, positions [i] and [j] exchange their
    images, every other position is untouched, and swapping the same
    positions again gives the original slice back. *)
Theorem Swap_spec (a : list Image) (i j : nat) :
  (imageByRef.Swap a i j = None
   <-> (List.length a <= i \/ List.length a <= j)%nat)
  /\ forall a', imageByRef.Swap a i j = Some a' ->
       List.length a' = List.length a
       /\ nth_error a' i = nth_error a j
       /\ nth_error a' j = nth_error a i
       /\ (forall k, k <> i -> k <> j -> nth_error a' k = nth_error a k)
       /\ imageByRef.Swap a' i j = Some a.
Proof.
  unfold imageByRef.Swap. split.
  - destruct (nth_error a i) as [x|] eqn:Hi.
    + destruct (nth_error a j) as [y|] eqn:Hj.
      * split; [discriminate|]. intros [H|H];
          apply nth_error_None in H; congruence.
      * split; [|reflexivity]. intros _. right. now apply nth_error_None.
    + split; [|reflexivity]. intros _. left. now apply nth_error_None.
  - intros a'. destruct (nth_error a i) as [x|] eqn:Hi; [|discriminate].
    destruct (nth_error a j) as [y|] eqn:Hj; [|discriminate].
    intros [= <-].
    assert (Li : (i < List.length a)%nat)
      by (apply nth_error_Some; congruence).
    assert (Lj : (j < List.length a)%nat)
      by (apply nth_error_Some; congruence).
    assert (Pj : nth_error
                   (imageByRef.set (imageByRef.set a i y) j x) j = Some x)
      by (apply set_nth_same; now rewrite set_length).
    assert (Pi : nth_error
                   (imageByRef.set (imageByRef.set a i y) j x) i = Some y).
    { destruct (Nat.eq_dec i j) as [E|E].
      - subst j. rewrite Pj. congruence.
      - rewrite set_nth_other by exact E. now apply set_nth_same. }
    assert (Pk : forall k, k <> i -> k <> j ->
                   nth_error (imageByRef.set (imageByRef.set a i y) j x) k
                   = nth_error a k).
    { intros k Hki Hkj. now rewrite !set_nth_other. }
    repeat split; try assumption.
    + now rewrite !set_length.
    + rewrite Pi, Pj. f_equal. apply nth_error_ext. intros k.
      destruct (Nat.eq_dec k j) as [->|Hkj].
      * rewrite set_nth_same; [congruence|].
        now rewrite set_length, !set_length.
      * rewrite set_nth_other by exact Hkj.
        destruct (Nat.eq_dec k i) as [->|Hki].
        -- rewrite set_nth_same; [congruence | now rewrite !set_length].
        -- rewrite set_nth_other by exact Hki. now apply Pk.
Qed.

Lemma Swap_spec_witness :
  imageByRef.Swap [imgY; imgX; imgZ] 0 2 = Some [imgZ; imgX; imgY]
  /\ imageByRef.Swap [imgZ; imgX; imgY] 0 2 = Some [imgY; imgX; imgZ].
Proof.
  split; [reflexivity|].
  exact (proj2 (proj2 (proj2 (proj2
           (proj2 (Swap_spec [imgY; imgX; imgZ] 0 2)
                  [imgZ; imgX; imgY] eq_refl))))).
Defined.

(** ** Commands: requests and output *)

Section MoreCommandFacts.

Context {S : Type} {client : ImageServiceClient S} {ext : Externals S}.

Lemma rpcs_app (a b : list Event) : rpcs (a ++ b) = (rpcs a ++ rpcs b)%list.
Proof. apply filter_app. Qed.

Lemma emit_emits (e : Event) (w : World S) : emit e w = emits [e] w.
Proof. reflexivity. Qed.

Lemma ret_emits (w : World S) : ret tt w = emits [] w.
Proof. unfold ret, emits. rewrite app_nil_r. now destruct w. Qed.

Lemma bind_emits (m k : M S unit) (a b : list Event) :
  (forall w, m w = emits a w) -> (forall w, k w = emits b w) ->
  forall w, (m ;; k) w = emits (a ++ b) w.
Proof.
  intros Hm Hk w. unfold bind. rewrite Hm. unfold emits at 1.
  rewrite Hk. unfold emits. cbn [service trace]. now rewrite app_assoc.
Qed.

Lemma forEach_emits {A} (l : list A) (body : A -> M S unit)
      (f : A -> list Event) :
  (forall x w, body x w = emits (f x) w) ->
  forall w, forEach l body w = emits (flat_map f l) w.
Proof.
  intros Hb. induction l as [|x l IH]; intros w; cbn [forEach flat_map].
  - apply ret_emits.
  - apply bind_emits; [apply Hb | exact IH].
Qed.

Lemma forEach_emit_emits {A} (l : list A) (f : A -> Event) (w : World S) :
  forEach l (fun x => emit (f x)) w = emits (map f l) w.
Proof. apply forEach_emit. Qed.

(** The loop body of [images] only writes. *)
Lemma listImageStep_events (verbose showDigest quiet noTrunc : bool)
      (image : Image) (w : World S) :
  listImageStep verbose showDigest quiet noTrunc image w
  = emits (imageEvents verbose showDigest quiet noTrunc image) w.
Proof.
  unfold listImageStep, imageEvents. destruct quiet; [reflexivity|].
  destruct verbose; cbn [negb].
  - revert w. repeat (apply bind_emits; try (intros w0)).
    + apply emit_emits.
    + apply forEach_emit_emits.
    + apply forEach_emit_emits.
    + destruct (negb (Size_ image =? 0)%N);
        [apply emit_emits | apply ret_emits].
    + destruct (Uid image); [apply emit_emits | apply ret_emits].
    + destruct (negb (String.eqb (Username image) ""));
        [apply emit_emits | apply ret_emits].
  - destruct (normalizeRepoDigest (RepoDigests image)) as [nm dg].
    cbn [fst snd]. destruct showDigest; apply forEach_emit_emits.
Qed.

Lemma imageEvents_no_rpc (verbose showDigest quiet noTrunc : bool)
      (image : Image) :
  rpcs (imageEvents verbose showDigest quiet noTrunc image) = [].
Proof.
  unfold imageEvents, rpcs. destruct quiet; [reflexivity|].
  destruct verbose; cbn [negb].
  - rewrite !filter_app.
    assert (P : forall (l : list string) (f : string -> string),
               filter isRpc (map (fun x => Print (f x)) l) = []).
    { intros l f. induction l; simpl; auto. }
    rewrite (P _ (fun tag => "RepoTags: " ++ tag ++ LF)).
    rewrite (P _ (fun digest => "RepoDigests: " ++ digest ++ LF)).
    destruct (negb (Size_ image =? 0)%N), (Uid image),
      (negb (String.eqb (Username image) "")); reflexivity.
  - induction (normalizeRepoTagPair _ _) as [|p l IH]; [reflexivity|].
    exact IH.
Qed.

(** *** The identifier column *)

Lemma len_app (u v : string) :
  strings.len (u ++ v) = strings.len u + strings.len v.
Proof. unfold strings.len. rewrite length_app. lia. Qed.

(** *** pull *)

(** X8: when --creds is given with an empty value or an empty user
    part, [pull] fails with the message of [parseCreds] and the world is
    untouched: no pull request is sent. *)
Theorem pull_bad_creds (context : cli.Context) (w : World S) :
  cli.First context <> "" ->
  getImageClient context = None ->
  cli.IsSet context "creds" = true ->
  cli.String context "creds" = ""
  \/ beforeFirst COLON (cli.String context "creds") = "" ->
  pullImageCommand context w
  = (w, Err (if String.eqb (cli.String context "creds") "" then
               "credentials can't be empty"
             else "username can't be empty")).
Proof.
  intros Hn Hc Hset Hbad. unfold pullImageCommand.
  rewrite (eqb_neq_false Hn), Hc, Hset. unfold bind, getAuth.
  rewrite parseCreds_eq.
  destruct (String.eqb (cli.String context "creds") "") eqn:E; [reflexivity|].
  destruct Hbad as [H|H].
  - rewrite H in E. discriminate.
  - now rewrite H.
Qed.

(** X9: with a name and usable credentials (or none), [pull] sends
    exactly one request, carrying the name and the credentials cut at
    the first colon.  On success it prints the returned reference; on
    failure it prints nothing and wraps the error. *)
Theorem pull_request (context : cli.Context) (auth : option AuthConfig)
        (w : World S) :
  cli.First context <> "" ->
  getImageClient context = None ->
  match auth with
  | Some a => cli.IsSet context "creds" = true
              /\ getAuth (cli.String context "creds") = Ok a
  | None => cli.IsSet context "creds" = false
  end ->
  let name := cli.First context in
  let answer := clientPullImage (service w) name auth in
  pullImageCommand context w
  = (mkWorld (fst answer)
       (trace w
        ++ RpcPullImage name auth
           :: match snd answer with
              | Ok ref => [Print ("Image is up to date for " ++ ref ++ LF)]
              | Err _ => []
              end),
     match snd answer with
     | Ok _ => Ok tt
     | Err e => Err ("pulling image failed: " ++ e)
     end).
Proof.
  intros Hn Hc Hauth name answer. subst name answer.
  unfold pullImageCommand. cbv zeta.
  rewrite (eqb_neq_false Hn), Hc. unfold bind at 1.
  assert (Ha : (if cli.IsSet context "creds" then
                  match getAuth (cli.String context "creds") with
                  | Err e => fail e
                  | Ok a => ret (Some a)
                  end
                else ret None) w = (w, Ok auth)).
  { destruct auth as [a|].
    - destruct Hauth as [-> ->]. reflexivity.
    - now rewrite Hauth. }
  rewrite Ha. unfold bind, onErr, PullImage, rpc.
  destruct (clientPullImage (service w) (cli.First context) auth)
    as [s' [ref|e]];
    cbn [fst snd]; [|reflexivity].
  unfold emit. cbn [service trace]. now rewrite <- app_assoc.
Qed.

(** *** Checks made before any request *)

(** X10: a command that lacks its argument only shows the help and
    succeeds, whatever the state of the connection; and when the
    connection cannot be set up, every command fails with that error
    unchanged.  In both cases no request is sent. *)
Theorem precheck_no_request (context : cli.Context) (w : World S) :
  (cli.First context = "" ->
   pullImageCommand context w = emits [ShowSubcommandHelp] w)
  /\ (cli.args context = [] ->
      imageStatusCommand context w = emits [ShowSubcommandHelp] w
      /\ removeImageCommand context w = emits [ShowSubcommandHelp] w)
  /\ (forall e, getImageClient context = Some e ->
        listImageCommand context w = (w, Err e)
        /\ (cli.First context <> "" ->
            pullImageCommand context w = (w, Err e))
        /\ (cli.args context <> [] ->
            imageStatusCommand context w = (w, Err e)
            /\ removeImageCommand context w = (w, Err e))).
Proof.
  split; [|split].
  - intros H. unfold pullImageCommand. now rewrite H.
  - intros H. unfold imageStatusCommand, removeImageCommand, cli.NArg.
    rewrite H. now split.
  - intros e He. split; [|split].
    + unfold listImageCommand. now rewrite He.
    + intros H. unfold pullImageCommand.
      now rewrite (eqb_neq_false H), He.
    + intros H. unfold imageStatusCommand, removeImageCommand, cli.NArg.
      rewrite He. destruct (cli.args context); [contradiction|]. now split.
Qed.

(** *** rmi *)

Lemma rpcs_prints {A} (f : A -> string) (l : list A) :
  rpcs (map (fun x => Print (f x)) l) = [].
Proof. induction l; simpl; auto. Qed.

Lemma removeImageStep_requests (id : string) (w w' : World S)
      (r : result unit) :
  removeImageStep id w = (w', r) ->
  exists sent rest,
    [RpcImageStatus id false; RpcRemoveImage id] = (sent ++ rest)%list
    /\ rpcs (trace w') = (rpcs (trace w) ++ sent)%list
    /\ (r = Ok tt -> rest = [])
    /\ sent <> [].
Proof.
  rewrite removeImageStep_unfold. cbv zeta.
  destruct (snd (clientImageStatus (service w) id false)) as [status|e].
  - destruct (RespImage status) as [image|].
    + destruct (string_dec id "") as [E|E].
      * subst id. unfold RemoveImage. cbn [String.eqb]. unfold fail.
        intros [= <- <-]. cbn [trace].
        exists [RpcImageStatus "" false], [RpcRemoveImage ""].
        rewrite rpcs_app. repeat split; discriminate.
      * rewrite (RemoveImage_nonempty _ E). cbn [service trace].
        destruct (snd (clientRemoveImage _ id)) as [[]|e];
          intros [= <- <-]; cbn [trace];
          exists [RpcImageStatus id false; RpcRemoveImage id], [];
          rewrite ?rpcs_app, ?rpcs_prints, ?app_nil_r, <- ?app_assoc;
          repeat split; discriminate.
    + intros [= <- <-]. exists [RpcImageStatus id false], [RpcRemoveImage id].
      cbn [trace]. rewrite rpcs_app. repeat split; discriminate.
  - intros [= <- <-]. exists [RpcImageStatus id false], [RpcRemoveImage id].
    cbn [trace]. rewrite rpcs_app. repeat split; discriminate.
Qed.

Lemma removeImageLoop_requests (ids : list string) (w w' : World S)
      (r : result unit) :
  forEach ids removeImageStep w = (w', r) ->
  exists sent rest,
    rmiPlan ids = (sent ++ rest)%list
    /\ rpcs (trace w') = (rpcs (trace w) ++ sent)%list
    /\ (r = Ok tt -> rest = [])
    /\ (ids <> [] -> sent <> []).
Proof.
  revert w. induction ids as [|id ids IH]; intros w; cbn [forEach].
  - intros [= <- <-]. exists [], [].
    split; [reflexivity|]. split; [now rewrite app_nil_r|]. split; auto.
  - unfold bind. destruct (removeImageStep id w) as [w1 r1] eqn:Hstep.
    destruct (removeImageStep_requests _ _ Hstep)
      as (sent1 & rest1 & Hpair & Hrpcs & Hok & Hne).
    destruct r1 as [[]|e].
    + intros Hloop.
      destruct (IH _ Hloop) as (sent2 & rest2 & Hplan & Hrpcs2 & Hok2 & _).
      rewrite (Hok eq_refl), app_nil_r in Hpair. subst sent1.
      exists ([RpcImageStatus id false; RpcRemoveImage id] ++ sent2)%list,
        rest2.
      unfold rmiPlan in *. cbn [flat_map].
      rewrite Hplan, Hrpcs2, Hrpcs, <- !app_assoc.
      repeat split; [exact Hok2 | discriminate].
    + intros [= <- <-].
      exists sent1, (rest1 ++ rmiPlan ids)%list.
      unfold rmiPlan in *. cbn [flat_map].
      rewrite app_assoc, <- Hpair.
      repeat split; [exact Hrpcs | discriminate | intros _; exact Hne].
Qed.

(** X11: the requests sent by [rmi] are a non-empty initial part of
    the plan "status, then remove" for each identifier in argument
    order: nothing else is sent, no identifier is removed before its
    status was asked, and no identifier is skipped.  When the command
    succeeds the whole plan was carried out. *)
Theorem rmi_requests (context : cli.Context) (w w' : World S)
        (r : result unit) :
  cli.args context <> [] ->
  getImageClient context = None ->
  removeImageCommand context w = (w', r) ->
  exists sent rest,
    rmiPlan (cli.args context) = (sent ++ rest)%list
    /\ rpcs (trace w') = (rpcs (trace w) ++ sent)%list
    /\ (r = Ok tt -> rest = [])
    /\ sent <> [].
Proof.
  intros Hargs Hc Hrun.
  rewrite removeImageCommand_loop in Hrun; [|exact Hargs|exact Hc].
  destruct (removeImageLoop_requests _ _ Hrun)
    as (sent & rest & H1 & H2 & H3 & H4).
  exists sent, rest. repeat split; auto.
Qed.

(** *** inspecti *)

Lemma imageStatusStep_requests (verbose : bool) (output id : string)
      (w w' : World S) (r : result unit) :
  output <> "json" -> output <> "yaml" ->
  imageStatusStep verbose output id w = (w', r) ->
  rpcs (trace w') = (rpcs (trace w) ++ [RpcImageStatus id verbose])%list
  /\ (r = Ok tt -> output = "table").
Proof.
  intros Hj Hy. unfold imageStatusStep. unfold bind at 1. unfold onErr at 1.
  unfold ImageStatus, rpc.
  destruct (clientImageStatus (service w) id verbose) as [s' [st|e]].
  - destruct (RespImage st) as [image|].
    + destruct (protobufObjectToJSON image) as [status|e].
      * rewrite (eqb_neq_false Hj), (eqb_neq_false Hy). cbn [orb].
        destruct (String.eqb output "table") eqn:Et.
        -- apply String.eqb_eq in Et.
           set (evs := ([Print ("ID: " ++ Id image ++ LF)]
                        ++ map (fun tag => Print ("Tag: " ++ tag ++ LF))
                               (RepoTags image)
                        ++ map (fun digest =>
                                  Print ("Digest: " ++ digest ++ LF))
                               (RepoDigests image)
                        ++ [Print ("Size: "
                                   ++ HumanSizeWithPrecision
                                        (Size_ image) 3 ++ LF)]
                        ++ (if verbose then
                              [Print ("Info: " ++ showInfo (RespInfo st)
                                      ++ LF)]
                            else []))%list).
           assert (Hno : rpcs evs = []).
           { subst evs. rewrite !rpcs_app.
             rewrite (rpcs_prints (fun tag => "Tag: " ++ tag ++ LF)).
             rewrite (rpcs_prints (fun digest => "Digest: " ++ digest ++ LF)).
             now destruct verbose. }
           assert (Hrun : forall w0 : World S,
                     (emit (Print ("ID: " ++ Id image ++ LF)) ;;
                      forEach (RepoTags image)
                        (fun tag => emit (Print ("Tag: " ++ tag ++ LF))) ;;
                      forEach (RepoDigests image)
                        (fun digest =>
                           emit (Print ("Digest: " ++ digest ++ LF))) ;;
                      emit (Print ("Size: "
                                   ++ HumanSizeWithPrecision (Size_ image) 3
                                   ++ LF)) ;;
                      (if verbose then
                         emit (Print ("Info: " ++ showInfo (RespInfo st)
                                      ++ LF))
                       else ret tt)) w0
                     = emits evs w0).
           { subst evs. repeat (apply bind_emits; try (intros w0)).
             - apply emit_emits.
             - apply forEach_emit_emits.
             - apply forEach_emit_emits.
             - apply emit_emits.
             - destruct verbose; [apply emit_emits | apply ret_emits]. }
           rewrite Hrun. unfold emits. cbn [service trace].
           clearbody evs. intros [= <- <-]. cbn [trace].
           split; [|intros _; exact Et].
           now rewrite !rpcs_app, Hno, app_nil_r.
        -- intros [= <- <-]. cbn [trace]. rewrite rpcs_app.
           split; [reflexivity | discriminate].
      * intros [= <- <-]. cbn [trace]. rewrite rpcs_app.
        split; [reflexivity | discriminate].
    + intros [= <- <-]. cbn [trace]. rewrite rpcs_app.
      split; [reflexivity | discriminate].
  - intros [= <- <-]. cbn [trace]. rewrite rpcs_app.
    split; [reflexivity | discriminate].
Qed.

Lemma imageStatusLoop_requests (verbose : bool) (output : string)
      (ids : list string) (w w' : World S) (r : result unit) :
  output <> "json" -> output <> "yaml" ->
  forEach ids (imageStatusStep verbose output) w = (w', r) ->
  exists sent rest,
    ids = (sent ++ rest)%list
    /\ rpcs (trace w')
       = (rpcs (trace w)
          ++ map (fun id => RpcImageStatus id verbose) sent)%list
    /\ (r = Ok tt -> rest = [])
    /\ (r = Ok tt -> ids <> [] -> output = "table").
Proof.
  intros Hj Hy. revert w. induction ids as [|id ids IH]; intros w;
    cbn [forEach].
  - intros [= <- <-]. exists [], []. cbn. rewrite app_nil_r.
    repeat split. intros _ H. contradiction.
  - unfold bind.
    destruct (imageStatusStep verbose output id w) as [w1 r1] eqn:Hstep.
    destruct (imageStatusStep_requests _ _ _ Hj Hy Hstep) as [Hrpcs Htab].
    destruct r1 as [[]|e].
    + intros Hloop.
      destruct (IH _ Hloop) as (sent & rest & Hids & Hrpcs2 & Hok & _).
      exists (id :: sent), rest. cbn [map].
      rewrite Hrpcs2, Hrpcs, <- app_assoc. subst ids.
      repeat split; [exact Hok | intros _ _; now apply Htab].
    + intros [= <- <-]. exists [id], ids.
      repeat split; [exact Hrpcs | discriminate | discriminate].
Qed.

(** X12: with an output value other than json and yaml (so "table" or
    an unknown one), [inspecti] sends only status requests, one for each
    argument of an initial part of the argument list, in argument order,
    each with verbose = not quiet; at least one is sent.  When the
    command succeeds every argument was looked up and the output value
    is "table". *)
Theorem inspecti_requests (context : cli.Context) (w w' : World S)
        (r : result unit) :
  cli.args context <> [] ->
  getImageClient context = None ->
  cli.String context "output" <> "" ->
  cli.String context "output" <> "json" ->
  cli.String context "output" <> "yaml" ->
  imageStatusCommand context w = (w', r) ->
  exists sent rest,
    cli.args context = (sent ++ rest)%list
    /\ rpcs (trace w')
       = (rpcs (trace w)
          ++ map (fun id => RpcImageStatus id
                              (negb (cli.Bool context "quiet"))) sent)%list
    /\ sent <> []
    /\ (r = Ok tt -> rest = [] /\ cli.String context "output" = "table").
Proof.
  intros Hargs Hc He Hj Hy. unfold imageStatusCommand, cli.NArg.
  rewrite Hc, (eqb_neq_false He).
  destruct (cli.args context) as [|id ids] eqn:Ea; [contradiction|].
  change (Z.of_nat (List.length (id :: ids)) =? 0) with false. cbv iota zeta.
  intros Hrun.
  destruct (@imageStatusLoop_requests _ _ _ _ _ _ Hj Hy Hrun)
    as (sent & rest & H1 & H2 & H3 & H4).
  exists sent, rest. repeat split; auto.
  intros ->. cbn in H2. cbn [forEach] in Hrun. unfold bind in Hrun.
    destruct (imageStatusStep _ _ id w) as [w1 r1] eqn:Hstep.
    destruct (@imageStatusStep_requests _ _ _ _ _ _ Hj Hy Hstep) as [Hr _].
    rewrite app_nil_r in H2.
    destruct r1 as [[]|e].
    + destruct (@imageStatusLoop_requests _ _ _ _ _ _ Hj Hy Hrun)
        as (sent2 & rest2 & _ & H2' & _).
      rewrite Hr, <- app_assoc in H2'. rewrite H2 in H2'.
      rewrite <- (app_nil_r (rpcs (trace w))) in H2' at 1.
      apply app_inv_head in H2'. discriminate.
    + injection Hrun as <- _. rewrite Hr in H2.
      rewrite <- (app_nil_r (rpcs (trace w))) in H2 at 2.
      apply app_inv_head in H2. discriminate.
Qed.

(** *** images *)

Lemma images_output (context : cli.Context) (w : World S) :
  getImageClient context = None ->
  cli.String context "output" <> "json" ->
  cli.String context "output" <> "yaml" ->
  let answer := clientListImages (service w) (cli.First context) in
  listImageCommand context w
  = match snd answer with
    | Err e =>
        (mkWorld (fst answer)
           (trace w ++ [RpcListImages (cli.First context)]),
         Err ("listing images failed: " ++ e))
    | Ok images =>
        (mkWorld (fst answer)
           ((trace w ++ [RpcListImages (cli.First context)])
            ++ tableEvents context (sort_Sort imageLess images)),
         Ok tt)
    end.
Proof.
  intros Hc Hj Hy answer. subst answer. unfold listImageCommand.
  rewrite Hc. unfold bind at 1. unfold onErr, ListImages, rpc.
  destruct (clientListImages (service w) (cli.First context))
    as [s' [images|e]]; cbn [fst snd]; [|reflexivity].
  cbv zeta. rewrite (eqb_neq_false Hj), (eqb_neq_false Hy).
  match goal with
  | |- ?cmd ?w1 = _ =>
      assert (Hrun : forall w0 : World S,
                cmd w0
                = emits (tableEvents context (sort_Sort imageLess images)) w0)
  end.
  { unfold tableEvents. cbv zeta.
    repeat (apply bind_emits; try (intros w0)).
    - destruct (negb (cli.Bool context "verbose")
                && negb (cli.Bool context "quiet"));
        [|apply ret_emits].
      destruct (cli.Bool context "digests"); apply emit_emits.
    - apply forEach_emits. intros x w1. apply listImageStep_events.
    - apply emit_emits. }
  now rewrite Hrun.
Qed.

Lemma rpcs_flat_map {A} (f : A -> list Event) (l : list A) :
  (forall x, rpcs (f x) = []) -> rpcs (flat_map f l) = [].
Proof.
  intros H. induction l as [|x l IH]; [reflexivity|].
  cbn [flat_map]. now rewrite rpcs_app, H, IH.
Qed.

Lemma tableEvents_no_rpc (context : cli.Context) (images : list Image) :
  rpcs (tableEvents context images) = [].
Proof.
  unfold tableEvents. cbv zeta. rewrite !rpcs_app.
  rewrite rpcs_flat_map by (intros x; apply imageEvents_no_rpc).
  destruct (negb (cli.Bool context "verbose")
            && negb (cli.Bool context "quiet"));
    destruct (cli.Bool context "digests"); reflexivity.
Qed.

(** The whole of the table written by [images] in table mode. *)
Lemma images_table_rows (context : cli.Context) (w : World S)
      (s' : S) (images : list Image) :
  getImageClient context = None ->
  cli.String context "output" <> "json" ->
  cli.String context "output" <> "yaml" ->
  cli.Bool context "verbose" = false ->
  cli.Bool context "quiet" = false ->
  clientListImages (service w) (cli.First context) = (s', Ok images) ->
  listImageCommand context w
  = (mkWorld s'
       (trace w
        ++ [RpcListImages (cli.First context);
            TabWrite (row (if cli.Bool context "digests" then
                             ["IMAGE"; "TAG"; "DIGEST"; "IMAGE ID"; "SIZE"]
                           else ["IMAGE"; "TAG"; "IMAGE ID"; "SIZE"]))]
        ++ flat_map
             (tableRowsWith
                (cli.Bool context "digests")
                (fun image =>
                   displayID (cli.Bool context "no-trunc") (Id image)))
             (sort_Sort imageLess images)
        ++ [TabFlush]),
     Ok tt).
Proof.
  intros Hc Hj Hy Hv Hq Hl.
  pose proof (@images_output context w Hc Hj Hy) as Hout. cbv zeta in Hout.
  rewrite Hout, Hl. cbn [fst snd]. clear Hout.
  unfold tableEvents. cbv zeta. rewrite Hv, Hq. cbn [negb andb].
  f_equal. f_equal. rewrite <- !app_assoc. reflexivity.
Qed.

Lemma Bool_flag (context : cli.Context) (name : string) :
  cli.Bool context name = true <-> In name (cli.bools context).
Proof.
  unfold cli.Bool. rewrite existsb_exists. split.
  - intros (x & Hx & E). apply String.eqb_eq in E. now subst x.
  - intros H. exists name. split; [exact H | apply String.eqb_refl].
Qed.

(** C6: in table mode of [images] (output neither json nor yaml,
    neither --quiet nor --verbose) every row written for an image holds
    in its identifier column the text [shown] below.  The flag
    --no-trunc is off unless it is given.  With --no-trunc the text is
    the raw identifier; without it, and with the constant
    [truncatedIDLen] at 12, a leading "sha256:" is removed and the rest
    is kept whole when it has at most 12 bytes, and cut to its first 12
    bytes when it is longer. *)
Theorem listImage_row_identifier (context : cli.Context) (w : World S)
        (s' : S) (images : list Image) :
  truncatedIDLen = 12 ->
  getImageClient context = None ->
  cli.String context "output" <> "json" ->
  cli.String context "output" <> "yaml" ->
  cli.Bool context "verbose" = false ->
  cli.Bool context "quiet" = false ->
  clientListImages (service w) (cli.First context) = (s', Ok images) ->
  let shown :=
    fun image => displayID (cli.Bool context "no-trunc") (Id image) in
  listImageCommand context w
  = (mkWorld s'
       (trace w
        ++ [RpcListImages (cli.First context);
            TabWrite (row (if cli.Bool context "digests" then
                             ["IMAGE"; "TAG"; "DIGEST"; "IMAGE ID"; "SIZE"]
                           else ["IMAGE"; "TAG"; "IMAGE ID"; "SIZE"]))]
        ++ flat_map (tableRowsWith (cli.Bool context "digests") shown)
                    (sort_Sort imageLess images)
        ++ [TabFlush]),
     Ok tt)
  /\ (cli.Bool context "no-trunc" = true
      <-> In "no-trunc" (cli.bools context))
  /\ forall image,
       (cli.Bool context "no-trunc" = true -> shown image = Id image)
       /\ (cli.Bool context "no-trunc" = false ->
           exists t suffix,
             (Id image = "sha256:" ++ t
              \/ (prefix "sha256:" (Id image) = false /\ t = Id image))
             /\ t = shown image ++ suffix
             /\ (strings.len t <= 12 -> shown image = t)
             /\ (12 < strings.len t -> strings.len (shown image) = 12)).
Proof.
  intros Hlen Hc Hj Hy Hv Hq Hl shown. split; [|split].
  - subst shown. now apply images_table_rows.
  - apply Bool_flag.
  - intros image. subst shown. cbv beta. split.
    + intros ->. reflexivity.
    + intros ->. rewrite <- Hlen. apply displayID_cut. rewrite Hlen. lia.
Qed.

(** X7: in table mode of [images], for a non-negative
    [truncatedIDLen], the text in the identifier column of every row is
    never longer than the raw identifier, and when --no-trunc is not
    given it is never longer than [truncatedIDLen]. *)
Theorem displayID_bound (context : cli.Context) (w : World S)
        (s' : S) (images : list Image) :
  0 <= truncatedIDLen ->
  getImageClient context = None ->
  cli.String context "output" <> "json" ->
  cli.String context "output" <> "yaml" ->
  cli.Bool context "verbose" = false ->
  cli.Bool context "quiet" = false ->
  clientListImages (service w) (cli.First context) = (s', Ok images) ->
  let shown :=
    fun image => displayID (cli.Bool context "no-trunc") (Id image) in
  listImageCommand context w
  = (mkWorld s'
       (trace w
        ++ [RpcListImages (cli.First context);
            TabWrite (row (if cli.Bool context "digests" then
                             ["IMAGE"; "TAG"; "DIGEST"; "IMAGE ID"; "SIZE"]
                           else ["IMAGE"; "TAG"; "IMAGE ID"; "SIZE"]))]
        ++ flat_map (tableRowsWith (cli.Bool context "digests") shown)
                    (sort_Sort imageLess images)
        ++ [TabFlush]),
     Ok tt)
  /\ forall image,
       strings.len (shown image) <= strings.len (Id image)
       /\ (~ In "no-trunc" (cli.bools context) ->
           strings.len (shown image) <= truncatedIDLen).
Proof.
  intros Hlen Hc Hj Hy Hv Hq Hl shown. split.
  - subst shown. now apply images_table_rows.
  - intros image. subst shown. cbv beta.
    destruct (displayID_cut (Id image) Hlen)
      as (t & suffix & Ht & Hs & H1 & H2).
    assert (Hts : strings.len t
                  = strings.len (displayID false (Id image))
                    + strings.len suffix)
      by (rewrite Hs at 1; apply len_app).
    pose proof (len_nonneg suffix) as Hsuf.
    assert (Hraw : strings.len t <= strings.len (Id image)).
    { destruct Ht as [Hp | [_ Hp]].
      - assert (strings.len (Id image)
                = strings.len "sha256:" + strings.len t)
          by (rewrite Hp at 1; apply len_app).
        pose proof (len_nonneg "sha256:"). lia.
      - rewrite Hp. lia. }
    split.
    + destruct (cli.Bool context "no-trunc");
        [unfold displayID; cbn [negb]; lia | lia].
    + intros Hflag.
      destruct (cli.Bool context "no-trunc") eqn:E;
        [apply Bool_flag in E; contradiction|].
      destruct (Z_le_gt_dec (strings.len t) truncatedIDLen) as [L|G].
      * rewrite (H1 L). exact L.
      * rewrite H2; lia.
Qed.

(** X13: in its text modes (output neither json nor yaml) [images]
    sends exactly one request, the list request with the first argument
    as filter (the empty string when there is none); the service state
    is the one left by that request; and the command succeeds exactly
    when the request does, the error being wrapped otherwise.  Writing
    the listing never fails. *)
Theorem images_requests (context : cli.Context) (w w' : World S)
        (r : result unit) :
  getImageClient context = None ->
  cli.String context "output" <> "json" ->
  cli.String context "output" <> "yaml" ->
  listImageCommand context w = (w', r) ->
  let answer := clientListImages (service w) (cli.First context) in
  service w' = fst answer
  /\ rpcs (trace w')
     = (rpcs (trace w) ++ [RpcListImages (cli.First context)])%list
  /\ r = match snd answer with
         | Ok _ => Ok tt
         | Err e => Err ("listing images failed: " ++ e)
         end.
Proof.
  intros Hc Hj Hy Hrun answer.
  pose proof (@images_output context w Hc Hj Hy) as Hout. cbv zeta in Hout.
  rewrite Hout in Hrun. clear Hout.
  fold answer in Hrun. destruct (snd answer) as [images|e];
    injection Hrun as <- <-; cbn [service trace];
    rewrite ?rpcs_app, ?tableEvents_no_rpc, ?app_nil_r; now repeat split.
Qed.

Lemma normalizeRepoTagPair_length (T : list string) (n : string) :
  List.length (normalizeRepoTagPair T n) = Nat.max 1 (List.length T).
Proof.
  destruct T as [|t T]; [reflexivity|].
  rewrite normalizeRepoTagPair_map by discriminate.
  rewrite length_map. simpl. lia.
Qed.

Lemma imageEvents_rows (verbose showDigest quiet noTrunc : bool)
      (image : Image) :
  List.length (filter isTabWrite
                 (imageEvents verbose showDigest quiet noTrunc image))
  = if verbose || quiet then 0%nat else rowsOf image.
Proof.
  unfold imageEvents, rowsOf.
  destruct quiet; [now rewrite orb_true_r|]. rewrite orb_false_r.
  destruct verbose; cbn [negb].
  - rewrite !filter_app.
    assert (P : forall (l : list string) (f : string -> string),
               filter isTabWrite (map (fun x => Print (f x)) l) = []).
    { intros l f. induction l; simpl; auto. }
    rewrite (P _ (fun tag => "RepoTags: " ++ tag ++ LF)).
    rewrite (P _ (fun digest => "RepoDigests: " ++ digest ++ LF)).
    destruct (negb (Size_ image =? 0)%N), (Uid image),
      (negb (String.eqb (Username image) "")); reflexivity.
  - rewrite <- (normalizeRepoTagPair_length
                  (RepoTags image)
                  (fst (normalizeRepoDigest (RepoDigests image)))).
    induction (normalizeRepoTagPair _ _) as [|p l IH]; [reflexivity|].
    cbn [map filter isTabWrite List.length]. now rewrite IH.
Qed.

Lemma filter_flat_map_length {A} (p : Event -> bool) (g : A -> list Event)
      (l : list A) :
  List.length (filter p (flat_map g l))
  = list_sum (map (fun x => List.length (filter p (g x))) l).
Proof.
  induction l as [|x l IH]; [reflexivity|].
  cbn [flat_map map list_sum fold_right].
  rewrite filter_app, List.length_app. unfold list_sum in IH. now rewrite IH.
Qed.

Lemma list_sum_zero {A} (l : list A) :
  list_sum (map (fun _ => 0%nat) l) = 0%nat.
Proof. induction l; [reflexivity | exact IHl]. Qed.

Lemma list_sum_perm {A} (f : A -> nat) (l l' : list A) :
  Permutation l l' -> list_sum (map f l) = list_sum (map f l').
Proof.
  induction 1; cbn [map list_sum fold_right] in *; unfold list_sum in *;
    lia.
Qed.

(** X14: in table mode the number of lines handed to the table writer
    is one (the header) plus, for every image the service returned, the
    number of its tags, an image without tag counting for one; this
    does not depend on the order the sort gives.  With --quiet or
    --verbose nothing is handed to the table writer. *)
Theorem images_row_count (context : cli.Context) (w : World S)
        (s' : S) (images : list Image) :
  (forall l, Permutation (sort_Sort imageLess l) l) ->
  getImageClient context = None ->
  cli.String context "output" <> "json" ->
  cli.String context "output" <> "yaml" ->
  clientListImages (service w) (cli.First context) = (s', Ok images) ->
  exists evs,
    listImageCommand context w = (mkWorld s' (trace w ++ evs), Ok tt)
    /\ List.length (filter isTabWrite evs)
       = if cli.Bool context "verbose" || cli.Bool context "quiet" then 0%nat
         else Datatypes.S (list_sum (map rowsOf images)).
Proof.
  intros Hsort Hc Hj Hy Hl.
  exists ([RpcListImages (cli.First context)]
          ++ tableEvents context (sort_Sort imageLess images))%list.
  split.
  - pose proof (@images_output context w Hc Hj Hy) as Hout.
    cbv zeta in Hout. rewrite Hout, Hl. cbn [fst snd].
    now rewrite <- app_assoc.
  - rewrite filter_app. cbn [filter isTabWrite app].
    unfold tableEvents. cbv zeta. rewrite !filter_app, !List.length_app.
    rewrite filter_flat_map_length.
    rewrite (list_sum_perm _ (Hsort images)).
    rewrite (map_ext _ _ (fun x => imageEvents_rows _ _ _ _ x)).
    destruct (cli.Bool context "verbose"), (cli.Bool context "quiet");
      cbn [negb andb orb filter isTabWrite List.length];
      rewrite ?list_sum_zero; try reflexivity.
    change (fun x : Image => rowsOf x) with rowsOf.
    destruct (cli.Bool context "digests");
      cbn [filter isTabWrite List.length]; lia.
Qed.

(** X15: with --output json or yaml the flags --verbose, --quiet,
    --digests and --no-trunc play no part: two invocations with the same
    first argument and the same output value behave alike. *)
Theorem images_serialised_flags (c1 c2 : cli.Context) (w : World S) :
  getImageClient c1 = None ->
  getImageClient c2 = None ->
  cli.First c1 = cli.First c2 ->
  cli.String c1 "output" = cli.String c2 "output" ->
  cli.String c1 "output" = "json" \/ cli.String c1 "output" = "yaml" ->
  listImageCommand c1 w = listImageCommand c2 w.
Proof.
  intros H1 H2 Hf Ho Hjy. unfold listImageCommand.
  rewrite H1, H2, <- Hf, <- Ho. unfold bind, onErr, ListImages, rpc.
  destruct (clientListImages (service w) (cli.First c1)) as [s' [images|e]];
    [|reflexivity].
  destruct Hjy as [-> | ->]; reflexivity.
Qed.

End MoreCommandFacts.

(** ** Runs for the further properties *)

Lemma pull_bad_creds_witness :
  pullImageCommand (ext := onStore)
                   (cli.mkContext ["alpine"] [] [("creds", ":pw")])
                   (emptyWorld [])
  = (emptyWorld [], Err "username can't be empty").
Proof.
  refine (@pull_bad_creds _ storeClient onStore
            (cli.mkContext ["alpine"] [] [("creds", ":pw")])
            (emptyWorld []) _ eq_refl eq_refl _);
    [discriminate | right; reflexivity].
Defined.

Lemma pull_request_witness :
  pullImageCommand (ext := onStore)
                   (cli.mkContext ["alpine"] [] [("creds", "bob:p:w")])
                   (emptyWorld [])
  = (mkWorld [] [RpcPullImage "alpine" (Some (mkAuth "bob" "p:w"));
                 Print ("Image is up to date for alpine" ++ LF)],
     Ok tt).
Proof.
  refine (@pull_request _ storeClient onStore
            (cli.mkContext ["alpine"] [] [("creds", "bob:p:w")])
            (Some (mkAuth "bob" "p:w")) (emptyWorld []) _ eq_refl _);
    [discriminate | split; reflexivity].
Defined.

Lemma precheck_no_request_witness :
  imageStatusCommand (ext := onStore) (cli.mkContext [] [] [])
                     (emptyWorld [imgY])
  = (mkWorld [imgY] [ShowSubcommandHelp], Ok tt).
Proof.
  exact (proj1 (proj1 (proj2 (@precheck_no_request _ storeClient onStore
                                (cli.mkContext [] [] [])
                                (emptyWorld [imgY])))
                      eq_refl)).
Defined.

Lemma rmi_requests_witness :
  exists sent rest,
    rmiPlan ["1"; "3"; "2"] = (sent ++ rest)%list
    /\ rpcs [RpcImageStatus "1" false; RpcRemoveImage "1";
             Print ("Deleted: b" ++ LF); RpcImageStatus "3" false]
       = (rpcs [] ++ sent)%list
    /\ (Err "no such image 3" = Ok tt -> rest = [])
    /\ sent <> [].
Proof.
  refine (@rmi_requests _ storeClient onStore
            (cli.mkContext ["1"; "3"; "2"] [] [])
            (emptyWorld [imgY; imgZ])
            (mkWorld [imgZ]
               [RpcImageStatus "1" false; RpcRemoveImage "1";
                Print ("Deleted: b" ++ LF); RpcImageStatus "3" false])
            (Err "no such image 3") _ eq_refl eq_refl).
  discriminate.
Defined.

Lemma inspecti_requests_witness :
  exists sent rest,
    ["2"; "1"] = (sent ++ rest)%list
    /\ rpcs [RpcImageStatus "2" false; Print ("ID: 2" ++ LF);
             Print ("Digest: y" ++ LF); Print ("Size: 0B" ++ LF);
             RpcImageStatus "1" false; Print ("ID: 1" ++ LF);
             Print ("Tag: b" ++ LF); Print ("Size: 0B" ++ LF)]
       = (rpcs [] ++ map (fun id => RpcImageStatus id false) sent)%list
    /\ sent <> []
    /\ (Ok tt = Ok tt -> rest = [] /\ "table" = "table").
Proof.
  refine (@inspecti_requests _ storeClient onStore
            (cli.mkContext ["2"; "1"] ["quiet"] [("output", "table")])
            (emptyWorld [imgY; imgZ])
            (mkWorld [imgY; imgZ]
               [RpcImageStatus "2" false; Print ("ID: 2" ++ LF);
                Print ("Digest: y" ++ LF); Print ("Size: 0B" ++ LF);
                RpcImageStatus "1" false; Print ("ID: 1" ++ LF);
                Print ("Tag: b" ++ LF); Print ("Size: 0B" ++ LF)])
            (Ok tt) _ eq_refl _ _ _ eq_refl); discriminate.
Defined.

Lemma images_requests_witness :
  [imgY; imgZ] = [imgY; imgZ]
  /\ rpcs [RpcListImages "b"; Print ("1" ++ LF); TabFlush]
     = (rpcs [] ++ [RpcListImages "b"])%list
  /\ Ok tt = Ok tt.
Proof.
  refine (@images_requests _ storeClient onStore
            (cli.mkContext ["b"] ["quiet"] [])
            (emptyWorld [imgY; imgZ])
            (mkWorld [imgY; imgZ]
               [RpcListImages "b"; Print ("1" ++ LF); TabFlush])
            (Ok tt) eq_refl _ _ eq_refl); discriminate.
Defined.

Lemma images_row_count_witness :
  exists evs,
    listImageCommand (ext := onStore) (cli.mkContext [] [] [])
                     (emptyWorld [imgLong; imgZ])
    = (mkWorld [imgLong; imgZ] ([] ++ evs), Ok tt)
    /\ List.length (filter isTabWrite evs) = 4%nat.
Proof.
  refine (@images_row_count _ storeClient onStore (cli.mkContext [] [] [])
            (emptyWorld [imgLong; imgZ]) [imgLong; imgZ] [imgLong; imgZ]
            (insertionSort_perm imageLess) eq_refl _ _ eq_refl);
    discriminate.
Defined.

Lemma images_serialised_flags_witness :
  listImageCommand (ext := onStore)
    (cli.mkContext ["b"] ["quiet"; "no-trunc"] [("output", "yaml")])
    (emptyWorld [imgY; imgZ])
  = listImageCommand (ext := onStore)
      (cli.mkContext ["b"] ["verbose"] [("output", "yaml")])
      (emptyWorld [imgY; imgZ]).
Proof.
  refine (@images_serialised_flags _ storeClient onStore
            (cli.mkContext ["b"] ["quiet"; "no-trunc"] [("output", "yaml")])
            (cli.mkContext ["b"] ["verbose"] [("output", "yaml")])
            (emptyWorld [imgY; imgZ]) eq_refl eq_refl eq_refl eq_refl _).
  right. reflexivity.
Defined.

Lemma listImage_row_identifier_witness :
  listImageCommand (ext := onStore) (cli.mkContext [] [] [])
                   (emptyWorld [imgLong])
  = (mkWorld [imgLong]
       [RpcListImages "";
        TabWrite (row ["IMAGE"; "TAG"; "IMAGE ID"; "SIZE"]);
        TabWrite (row ["busybox"; "1.28"; "abcdef012345"; "1024B"]);
        TabWrite (row ["busybox"; "latest"; "abcdef012345"; "1024B"]);
        TabFlush],
     Ok tt).
Proof.
  refine (proj1 (@listImage_row_identifier _ storeClient onStore
                   (cli.mkContext [] [] []) (emptyWorld [imgLong])
                   [imgLong] [imgLong]
                   eq_refl eq_refl _ _ eq_refl eq_refl eq_refl));
    discriminate.
Defined.

Lemma displayID_bound_witness :
  strings.len (displayID (ext := onStore) false (Id imgLong))
  <= strings.len (Id imgLong).
Proof.
  refine (proj1 (proj2 (@displayID_bound _ storeClient onStore
                          (cli.mkContext [] [] []) (emptyWorld [imgLong])
                          [imgLong] [imgLong]
                          _ eq_refl _ _ eq_refl eq_refl eq_refl)
                       imgLong));
    discriminate.
Defined.
